(** * Pinch: the two-finger pinch plugin of pixi-viewport

    A shallow embedding of [src/plugins/Pinch.ts].

    Numbers are JavaScript numbers, that is IEEE 754 binary64 values; they are
    embedded as Rocq's primitive floats, whose operations are the correctly
    rounded binary64 ones.  [Math.pow(d, 2)] is taken to be the correctly
    rounded square [d * d].

    The plugin mutates three objects: itself, the viewport it is attached to
    ([this.parent]) and the contacts of the viewport's input manager
    ([this.parent.input.touches]).  The three are threaded explicitly through
    every method as one [World]; a method returns its boolean result, the
    events it emitted (in order) and the world it leaves behind. *)

From Stdlib Require Import Floats.PrimFloat ZArith List Bool Lia.
Import ListNotations.

Set Implicit Arguments.

(** * The program *)

(** ** Data *)

(** [Point] / [PointData] of pixi.js.  The [data] slot the plugin stores with
    a contact's position is never read back by the plugin and is left out. *)
Record Point : Set := mkPoint { px : float; py : float }.

Definition PointData : Set := Point.

(** The [axis] option: ['all' | 'x' | 'y']. *)
Inductive Axis : Set := axis_all | axis_x | axis_y.

Record IPinchOptions : Set := mkOptions {
  noDrag : bool;
  percent : float;
  factor : float;
  center : option Point;
  axis : Axis
}.

Definition DEFAULT_PINCH_OPTIONS : IPinchOptions :=
  {| noDrag := false; percent := 1%float; center := None;
     factor := 1%float; axis := axis_all |}.

(** A contact of the input manager: [{ id, last }]. *)
Record IViewportTouch : Set := mkTouch {
  id : Z;
  last : option PointData
}.

(** What the plugin reads of the input manager: [count()] and [touches].
    [InputManager.ts] is not among the sources, so the result of [count()] is
    carried as data next to the contact list instead of being computed. *)
Record InputManager : Set := mkInput {
  count : nat;
  touches : list IViewportTouch
}.

(** The part of the viewport the plugin reads and writes: position, scale,
    and the screen size used by [moveCenter]. *)
Record Viewport : Set := mkViewport {
  vx : float;
  vy : float;
  scale_x : float;
  scale_y : float;
  screenWidth : float;
  screenHeight : float
}.

(** The pointer event: the plugin reads [pointerId] and [global]. *)
Record FederatedPointerEvent : Set := mkEvent {
  pointerId : Z;
  global : Point
}.

(** The plugin object.  [paused] is inherited from [Plugin]. *)
Record Pinch : Set := mkPinch {
  options : IPinchOptions;
  paused : bool;
  active : bool;
  pinching : bool;
  moved : bool;
  lastCenter : option PointData
}.

Record World : Set := mkWorld {
  self : Pinch;
  parent : Viewport;
  input : InputManager
}.

(** Events handed to [this.parent.emit].  The payload holds a reference to
    the viewport; listeners run synchronously, so what they can observe is
    the viewport as it is when the event is emitted, and that is what the
    event records here. *)
Inductive Emit : Set :=
| zoomed (viewport : Viewport) (center : Point)
| moved_by_pinch (viewport : Viewport)
| pinch_start (viewport : Viewport)
| pinch_end (viewport : Viewport).

(** pixi.js and the sibling plugins the method calls into.  They are not part
    of this file's source and are kept abstract:
    - [toParent v g] is [(parent.parent || parent).toLocal(g)],
    - [toViewport v p] is [parent.toLocal(p, parent.parent || parent)],
    - [fromViewport v p] is [(parent.parent || parent).toLocal(p, parent)],
    each with the viewport in state [v], and
    - [clampZoom] is the result of [parent.plugins.get('clamp-zoom', true)]
      with its [clamp()] method, when the plugin is installed. *)
Record Scene : Type := mkScene {
  toParent : Viewport -> Point -> Point;
  toViewport : Viewport -> Point -> Point;
  fromViewport : Viewport -> Point -> Point;
  clampZoom : option (Viewport -> Viewport)
}.

Open Scope float_scope.

(** ** JavaScript helpers *)

(** Truthiness of a number: every number but [+0], [-0] and [NaN]. *)
Definition truthy (n : float) : bool :=
  negb (PrimFloat.eqb n 0) && negb (PrimFloat.is_nan n).

Definition pow2 (d : float) : float := d * d.

(** [Math.sqrt(Math.pow(b.x - a.x, 2) + Math.pow(b.y - a.y, 2))] *)
Definition distance (a b : Point) : float :=
  PrimFloat.sqrt (pow2 (px b - px a) + pow2 (py b - py a)).

(** [(t.last as PointData)]: a cast, nothing is checked at run time.  On
    [null] the next property access would throw; [move_cast_safe] below shows
    that [move] casts only recorded positions. *)
Definition asPointData (p : option PointData) : PointData :=
  match p with
  | Some q => q
  | None => mkPoint nan nan
  end.

(** ** Viewport updates *)

Definition set_scale_x (v : Viewport) (s : float) : Viewport :=
  mkViewport (vx v) (vy v) s (scale_y v) (screenWidth v) (screenHeight v).

Definition set_scale_y (v : Viewport) (s : float) : Viewport :=
  mkViewport (vx v) (vy v) (scale_x v) s (screenWidth v) (screenHeight v).

Definition set_position (v : Viewport) (nx ny : float) : Viewport :=
  mkViewport nx ny (scale_x v) (scale_y v) (screenWidth v) (screenHeight v).

(** [parent.x += dx; parent.y += dy] *)
Definition translate (v : Viewport) (dx dy : float) : Viewport :=
  set_position v (vx v + dx) (vy v + dy).

(** Modelled from the spec: the position [Viewport.moveCenter] gives the
    viewport.  [Viewport.ts] is not among the sources; the spec has the call
    "move the viewport so that [fixedCenter] is centered".  That is the
    position at which the given world point sits in the middle of the screen
    at the current scale. *)
Definition centerPosition (p : Point) (v : Viewport) : Point :=
  mkPoint ((screenWidth v / scale_x v / 2 - px p) * scale_x v)
          ((screenHeight v / scale_y v / 2 - py p) * scale_y v).

(** Modelled from the spec: [Viewport.moveCenter], which is not among the
    sources.  It moves the viewport to [centerPosition] and leaves the scale
    alone. *)
Definition moveCenter (p : Point) (v : Viewport) : Viewport :=
  set_position v (px (centerPosition p v)) (py (centerPosition p v)).


(** ** Plugin updates *)

Definition set_active (p : Pinch) (b : bool) : Pinch :=
  mkPinch (options p) (paused p) b (pinching p) (moved p) (lastCenter p).

Definition set_pinching (p : Pinch) (b : bool) : Pinch :=
  mkPinch (options p) (paused p) (active p) b (moved p) (lastCenter p).

(** [this.lastCenter = point; this.moved = true] *)
Definition set_moved (p : Pinch) (c : Point) : Pinch :=
  mkPinch (options p) (paused p) (active p) (pinching p) true (Some c).

(** The four assignments of [up]. *)
Definition reset (p : Pinch) : Pinch :=
  mkPinch (options p) (paused p) false false false None.

(** The plugin as the constructor leaves it. *)
Definition new_Pinch (o : IPinchOptions) : Pinch :=
  mkPinch o false false false false None.

(** ** The methods *)

Definition down (w : World) : bool * list Emit * World :=
  if (2 <=? count (input w))%nat
  then (true, [], mkWorld (set_active (self w) true) (parent w) (input w))
  else (false, [], w).

(** [['all', 'x'].includes(this.options.axis)] *)
Definition isAxisX (o : IPinchOptions) : bool :=
  match axis o with
  | axis_all | axis_x => true
  | axis_y => false
  end.

Definition isAxisY (o : IPinchOptions) : bool :=
  match axis o with
  | axis_all | axis_y => true
  | axis_x => false
  end.

(** [last]: the separation of the two contacts before the event is
    recorded, [null] when one of them has no position yet. *)
Definition previousDistance (first second : IViewportTouch) : option float :=
  match last first, last second with
  | Some a, Some b => Some (distance a b)
  | _, _ => None
  end.

(** The [if (first.id === e.pointerId) ... else if (second.id === ...)]
    statement: the event's position is stored in the contact it belongs to. *)
Definition record (e : FederatedPointerEvent) (p : PointData)
    (first second : IViewportTouch) : IViewportTouch * IViewportTouch :=
  if Z.eqb (id first) (pointerId e) then (mkTouch (id first) (Some p), second)
  else if Z.eqb (id second) (pointerId e)
       then (first, mkTouch (id second) (Some p))
       else (first, second).

(** [new Point(a.x + (b.x - a.x) / 2, a.y + (b.y - a.y) / 2)] *)
Definition midpoint (a b : PointData) : Point :=
  mkPoint (px a + (px b - px a) / 2) (py a + (py b - py a) / 2).

(** The literal [0.0000000001]: the binary64 value nearest to it. *)
Definition epsilon : float := 0x1.b7cdfd9d7bdbbp-34.

(** [dist], after [dist = dist === 0 ? (dist = 0.0000000001) : dist]. *)
Definition currentDistance (a b : PointData) : float :=
  let dist := distance a b in
  if PrimFloat.eqb dist 0 then epsilon else dist.

(** [change] *)
Definition scaleChange (o : IPinchOptions) (lastd dist : float)
    (v : Viewport) : float :=
  (1 - lastd / dist) * percent o
  * (if isAxisX o then scale_x v else scale_y v).

(** The two guarded [+= change] statements. *)
Definition applyChange (o : IPinchOptions) (change : float)
    (v : Viewport) : Viewport :=
  let v1 := if isAxisX o then set_scale_x v (scale_x v + change) else v in
  if isAxisY o then set_scale_y v1 (scale_y v1 + change) else v1.

Definition runClamp (S : Scene) (v : Viewport) : Viewport :=
  match clampZoom S with
  | Some clamp => clamp v
  | None => v
  end.

(** The statements from [if (this.options.center)] to the first [moved]
    event: either the configured point is centred, or the viewport is moved
    so that the point under the fingers stays where it was. *)
Definition anchor (S : Scene) (o : IPinchOptions) (point : Point)
    (oldPoint : option PointData) (v : Viewport) : list Emit * Viewport :=
  match center o with
  | Some c => ([], moveCenter c v)
  | None =>
      let newPoint := fromViewport S v (asPointData oldPoint) in
      let v' := translate v ((px point - px newPoint) * factor o)
                            ((py point - py newPoint) * factor o) in
      ([moved_by_pinch v'], v')
  end.

(** [if (!this.options.noDrag && this.lastCenter) { ... }] *)
Definition drag (o : IPinchOptions) (point : Point)
    (lc : option PointData) (v : Viewport) : list Emit * Viewport :=
  if noDrag o then ([], v)
  else
    match lc with
    | Some c =>
        let v' := translate v ((px point - px c) * factor o)
                              ((py point - py c) * factor o) in
        ([moved_by_pinch v'], v')
    | None => ([], v)
    end.

(** The body of [if (last) { ... }]: one transform update. *)
Definition commit (S : Scene) (p : Pinch) (lastd : float)
    (first second : IViewportTouch) (v : Viewport)
    : list Emit * Pinch * Viewport :=
  let o := options p in
  let a := asPointData (last first) in
  let b := asPointData (last second) in
  let point := midpoint a b in
  let oldPoint :=
    match center o with
    | None => Some (toViewport S v point)
    | Some _ => None
    end in
  let dist := currentDistance a b in
  let change := scaleChange o lastd dist v in
  let v1 := applyChange o change v in
  let v2 := runClamp S v1 in
  let '(ev3, v3) := anchor S o point oldPoint v2 in
  let '(ev4, v4) := drag o point (lastCenter p) v3 in
  (zoomed v1 point :: ev3 ++ ev4, set_moved p point, v4).

Definition move (S : Scene) (e : FederatedPointerEvent) (w : World)
    : bool * list Emit * World :=
  if paused (self w) || negb (active (self w)) then (false, [], w)
  else
    let p := toParent S (parent w) (global e) in
    match touches (input w) with
    | first :: second :: rest =>
        let lastd := previousDistance first second in
        let '(first', second') := record e p first second in
        let input' := mkInput (count (input w)) (first' :: second' :: rest) in
        (* the [else if (!this.pinching)] branch *)
        let otherwise :=
          if negb (pinching (self w)) then
            (true, [pinch_start (parent w)],
             mkWorld (set_pinching (self w) true) (parent w) input')
          else (true, [], mkWorld (self w) (parent w) input') in
        match lastd with
        | Some d =>
            if truthy d then
              let '(evs, self', parent') :=
                commit S (self w) d first' second' (parent w) in
              (true, evs, mkWorld self' parent' input')
            else otherwise
        | None => otherwise
        end
    | _ => (false, [], w)
    end.

Definition up (w : World) : bool * list Emit * World :=
  if pinching (self w) && (length (touches (input w)) <=? 1)%nat
  then (true, [pinch_end (parent w)],
        mkWorld (reset (self w)) (parent w) (input w))
  else (false, [], w).

(** ** Sequences of calls

    Between two calls of the plugin the rest of the program runs: the input
    manager adds and removes contacts, the application pauses or resumes the
    plugin, other plugins move the viewport.  [Host] stands for all of that:
    it replaces what the plugin does not own and leaves the plugin's own
    fields alone. *)

Inductive Call : Set :=
| Down
| Move (e : FederatedPointerEvent)
| Up
| Host (paused' : bool) (parent' : Viewport) (input' : InputManager).

Definition host (paused' : bool) (parent' : Viewport) (input' : InputManager)
    (w : World) : bool * list Emit * World :=
  let p := self w in
  (false, [],
   mkWorld (mkPinch (options p) paused' (active p) (pinching p) (moved p)
                    (lastCenter p))
           parent' input').

Definition call (S : Scene) (c : Call) (w : World) : bool * list Emit * World :=
  match c with
  | Down => down w
  | Move e => move S e w
  | Up => up w
  | Host b v i => host b v i w
  end.

Definition world_of (r : bool * list Emit * World) : World := snd r.
Definition events_of (r : bool * list Emit * World) : list Emit := snd (fst r).
Definition result_of (r : bool * list Emit * World) : bool := fst (fst r).

(** All events of a sequence of calls, and the world after it. *)
Fixpoint run (S : Scene) (cs : list Call) (w : World) : list Emit * World :=
  match cs with
  | [] => ([], w)
  | c :: cs' =>
      let r := call S c w in
      let '(evs, w') := run S cs' (world_of r) in
      (events_of r ++ evs, w')
  end.

(** A world in which the plugin has just been constructed. *)
Definition initial (w : World) : Prop :=
  self w = new_Pinch (options (self w)).

(** The number of contacts that have a recorded position. *)
Definition known (ts : list IViewportTouch) : nat :=
  length (filter (fun t => match last t with Some _ => true | None => false end) ts).

(** What an input layer that never records a position itself may do in one
    call: when the host runs, no more contacts have a position afterwards
    than before.  The plugin's own methods are not restricted. *)
Definition allowed (c : Call) (w : World) : Prop :=
  match c with
  | Host _ _ i => (known (touches i) <= known (touches (input w)))%nat
  | _ => True
  end.

(** A sequence of calls in which every call is [allowed] where it is made. *)
Fixpoint disciplined (S : Scene) (cs : list Call) (w : World) : Prop :=
  match cs with
  | [] => True
  | c :: cs' => allowed c w /\ disciplined S cs' (world_of (call S c w))
  end.

Definition is_pinch_start (ev : Emit) : bool :=
  match ev with pinch_start _ => true | _ => false end.

Definition is_pinch_end (ev : Emit) : bool :=
  match ev with pinch_end _ => true | _ => false end.

Definition is_zoomed (ev : Emit) : bool :=
  match ev with zoomed _ _ => true | _ => false end.

Definition occurrences (f : Emit -> bool) (evs : list Emit) : nat :=
  length (filter f evs).

Definition b2n (b : bool) : nat := if b then 1 else 0.

(** ** Notions used in the statements *)

(** The branch of [move] taken when the previous separation is [null], [0]
    or [NaN]. *)
Definition unresolved (first second : IViewportTouch) : bool :=
  match previousDistance first second with
  | Some d => negb (truthy d)
  | None => true
  end.

(** What holds of the plugin's own fields whatever the host does. *)
Definition coherent (p : Pinch) : Prop :=
  (pinching p = true -> active p = true)
  /\ (lastCenter p <> None -> active p = true /\ moved p = true).

(** What holds in addition when the host never records positions. *)
Definition settled (w : World) : Prop :=
  (lastCenter (self w) <> None -> pinching (self w) = true)
  /\ (pinching (self w) = false -> (known (touches (input w)) <= 1)%nat).


(** The factor in the spec's words: the scale "on the axis being zoomed
    (x if only x is active, else y)". *)
Definition spec_currentAxisScale (o : IPinchOptions) (v : Viewport) : float :=
  if isAxisX o && negb (isAxisY o) then scale_x v else scale_y v.

Definition spec_scaleDelta (o : IPinchOptions) (previous current : float)
    (v : Viewport) : float :=
  (1 - previous / current) * percent o * spec_currentAxisScale o v.

(** ** A concrete scene

    The viewport is a child of an untransformed stage: global coordinates are
    the parent's coordinates, and the viewport's own transform is its
    position and scale.  No clamp plugin is installed. *)

Definition flat_scene : Scene :=
  {| toParent := fun _ g => g;
     toViewport := fun v p =>
       mkPoint ((px p - vx v) / scale_x v) ((py p - vy v) / scale_y v);
     fromViewport := fun v p =>
       mkPoint (px p * scale_x v + vx v) (py p * scale_y v + vy v);
     clampZoom := None |}.

Definition unit_viewport : Viewport := mkViewport 0 0 1 1 800 600.

Definition at_ (i : Z) (a b : float) : FederatedPointerEvent :=
  mkEvent i (mkPoint a b).

Definition two_fresh : InputManager :=
  mkInput 2 [mkTouch 1 None; mkTouch 2 None].

Definition one_fresh : InputManager := mkInput 1 [mkTouch 1 None].

(** Two contacts whose positions are already recorded, 100 apart. *)
Definition two_placed : InputManager :=
  mkInput 2 [mkTouch 1 (Some (mkPoint 0 0)); mkTouch 2 (Some (mkPoint 100 0))].

Definition two_coincident : InputManager :=
  mkInput 2 [mkTouch 1 (Some (mkPoint 5 5)); mkTouch 2 (Some (mkPoint 5 5))].

(** Default options but for a fixed centre at the origin. *)
Definition centred_options : IPinchOptions :=
  mkOptions false 1 1 (Some (mkPoint 0 0)) axis_all.

Definition fresh_world (o : IPinchOptions) (i : InputManager) : World :=
  mkWorld (new_Pinch o) unit_viewport i.

(** The plugin after a successful [down]. *)
Definition armed_world (o : IPinchOptions) (v : Viewport)
    (i : InputManager) : World :=
  mkWorld (mkPinch o false true false false None) v i.

(** A plugin in the middle of a session. *)
Definition pinching_world (o : IPinchOptions) (v : Viewport)
    (i : InputManager) : World :=
  mkWorld (mkPinch o false true true false None) v i.

(** The plugin after one transform update whose midpoint was (100, 0). *)
Definition dragging_world (o : IPinchOptions) : World :=
  mkWorld (mkPinch o false true true true (Some (mkPoint 100 0)))
          (mkViewport 400 300 1.5 1.5 800 600)
          (mkInput 2 [mkTouch 1 (Some (mkPoint 0 0));
                      mkTouch 2 (Some (mkPoint 200 0))]).

(** ** The constructor

    [new Pinch(parent, options)] with [options: IPinchOptions = {}]: every
    property of the argument is optional.  A property that is left out is
    [None] here; for [center], which may be given as [null], the given value
    is itself an [option].  Objects that carry a property whose value is
    [undefined] are not covered. *)

Record IPinchOptionsArg : Set := mkArg {
  arg_noDrag : option bool;
  arg_percent : option float;
  arg_factor : option float;
  arg_center : option (option Point);
  arg_axis : option Axis
}.

(** The default argument [{}]. *)
Definition no_options : IPinchOptionsArg := mkArg None None None None None.

Definition orElse {A : Type} (given : option A) (default : A) : A :=
  match given with
  | Some v => v
  | None => default
  end.

(** [Object.assign({}, defaults, arg)] *)
Definition assign (defaults : IPinchOptions) (arg : IPinchOptionsArg)
    : IPinchOptions :=
  {| noDrag := orElse (arg_noDrag arg) (noDrag defaults);
     percent := orElse (arg_percent arg) (percent defaults);
     factor := orElse (arg_factor arg) (factor defaults);
     center := orElse (arg_center arg) (center defaults);
     axis := orElse (arg_axis arg) (axis defaults) |}.

(** The constructor: the field initialisers and the assignment of
    [this.options]. *)
Definition construct (arg : IPinchOptionsArg) : Pinch :=
  new_Pinch (assign DEFAULT_PINCH_OPTIONS arg).


(** ** Further notions used in the statements *)

(** The calls the plugin itself makes, as opposed to what the host does. *)
Definition is_plugin_call (c : Call) : bool :=
  match c with
  | Host _ _ _ => false
  | _ => true
  end.

Definition is_moved (ev : Emit) : bool :=
  match ev with moved_by_pinch _ => true | _ => false end.

Definition is_some {A : Type} (o : option A) : bool :=
  match o with Some _ => true | None => false end.

(** [moved] is set exactly when a centre is stored. *)
Definition moved_iff_center (p : Pinch) : Prop :=
  moved p = true <-> lastCenter p <> None.

(** The same world with another stored centre. *)
Definition with_lastCenter (w : World) (lc : option PointData) : World :=
  let p := self w in
  mkWorld (mkPinch (options p) (paused p) (active p) (pinching p) (moved p) lc)
          (parent w) (input w).

(** The same world with the [noDrag] option set. *)
Definition with_noDrag (w : World) : World :=
  let p := self w in
  let o := options p in
  mkWorld (mkPinch (mkOptions true (percent o) (factor o) (center o) (axis o))
                   (paused p) (active p) (pinching p) (moved p) (lastCenter p))
          (parent w) (input w).

(** The position the two tracked contacts have after [e] was recorded, the
    first contact having been at [a] and the second at [b]. *)
Definition after_first (S : Scene) (e : FederatedPointerEvent) (w : World)
    (first : IViewportTouch) (a : PointData) : PointData :=
  if Z.eqb (id first) (pointerId e)
  then toParent S (parent w) (global e) else a.

Definition after_second (S : Scene) (e : FederatedPointerEvent) (w : World)
    (first second : IViewportTouch) (b : PointData) : PointData :=
  if Z.eqb (id first) (pointerId e) then b
  else if Z.eqb (id second) (pointerId e)
       then toParent S (parent w) (global e) else b.

(** * Properties *)

Ltac float_discriminate H :=
  match type of H with
  | ?a = ?b =>
      apply (f_equal (fun z => PrimFloat.eqb z b)) in H;
      vm_compute in H; discriminate H
  end.

(** ** Basic facts about the methods *)

Lemma move_idle (S : Scene) (e : FederatedPointerEvent) (w : World) :
  paused (self w) = true \/ active (self w) = false ->
  move S e w = (false, [], w).
Proof.
  intros [H | H]; unfold move; rewrite H; simpl; try reflexivity.
  now rewrite orb_true_r.
Qed.

Lemma move_few_contacts (S : Scene) (e : FederatedPointerEvent) (w : World) :
  (length (touches (input w)) < 2)%nat ->
  move S e w = (false, [], w).
Proof.
  intros H. unfold move.
  destruct (paused (self w) || negb (active (self w))); [reflexivity|].
  destruct (touches (input w)) as [|t [|t' ts]]; simpl in H; try reflexivity.
  lia.
Qed.

(** What [record] leaves in the two position slots. *)
Lemma record_last (e : FederatedPointerEvent) (p : PointData)
    (first second : IViewportTouch) :
  let r := record e p first second in
  last (fst r) = (if Z.eqb (id first) (pointerId e) then Some p else last first)
  /\ last (snd r) =
       (if Z.eqb (id first) (pointerId e) then last second
        else if Z.eqb (id second) (pointerId e) then Some p else last second)
  /\ id (fst r) = id first /\ id (snd r) = id second.
Proof.
  unfold record.
  destruct (Z.eqb (id first) (pointerId e)); simpl; [tauto|].
  destruct (Z.eqb (id second) (pointerId e)); simpl; tauto.
Qed.

(** A recorded position is never erased. *)
Lemma record_keeps (e : FederatedPointerEvent) (p : PointData)
    (first second : IViewportTouch) (a b : PointData) :
  last first = Some a -> last second = Some b ->
  exists a' b',
    last (fst (record e p first second)) = Some a' /\
    last (snd (record e p first second)) = Some b'.
Proof.
  intros Ha Hb.
  destruct (record_last e p first second) as (H1 & H2 & _).
  rewrite H1, H2, Ha, Hb.
  destruct (Z.eqb (id first) (pointerId e)), (Z.eqb (id second) (pointerId e));
    eauto.
Qed.

Lemma previousDistance_Some (first second : IViewportTouch) (d : float) :
  previousDistance first second = Some d ->
  exists a b, last first = Some a /\ last second = Some b /\ d = distance a b.
Proof.
  unfold previousDistance.
  destruct (last first) as [a|], (last second) as [b|]; try discriminate.
  intros H; injection H as <-. eauto.
Qed.

(** The cast [(t.last as PointData)] is only ever applied to a recorded
    position: whenever [move] runs a transform update, both contacts have
    one after [record]. *)
Lemma move_cast_safe (e : FederatedPointerEvent) (p : PointData)
    (first second : IViewportTouch) (d : float) :
  previousDistance first second = Some d ->
  last (fst (record e p first second)) <> None /\
  last (snd (record e p first second)) <> None.
Proof.
  intros H. apply previousDistance_Some in H as (a & b & Ha & Hb & _).
  destruct (record_keeps e p first second Ha Hb) as (a' & b' & -> & ->).
  split; discriminate.
Qed.

Lemma unresolved_without_position (first second : IViewportTouch) :
  last first = None \/ last second = None -> unresolved first second = true.
Proof.
  unfold unresolved, previousDistance.
  intros [H | H]; rewrite H; [|destruct (last first)]; reflexivity.
Qed.

Lemma move_unresolved (S : Scene) (e : FederatedPointerEvent) (w : World)
    (first second : IViewportTouch) (rest : list IViewportTouch) :
  paused (self w) = false -> active (self w) = true ->
  touches (input w) = first :: second :: rest ->
  unresolved first second = true ->
  let r := record e (toParent S (parent w) (global e)) first second in
  let input' := mkInput (count (input w)) (fst r :: snd r :: rest) in
  move S e w =
    if pinching (self w) then (true, [], mkWorld (self w) (parent w) input')
    else (true, [pinch_start (parent w)],
          mkWorld (set_pinching (self w) true) (parent w) input').
Proof.
  intros Hp Ha Ht Hu. unfold move. rewrite Hp, Ha, Ht. simpl.
  destruct (record e (toParent S (parent w) (global e)) first second)
    as [f' s']. simpl.
  unfold unresolved in Hu.
  destruct (previousDistance first second) as [d|].
  - destruct (truthy d); [discriminate|].
    destruct (pinching (self w)); reflexivity.
  - destruct (pinching (self w)); reflexivity.
Qed.

Lemma move_commits (S : Scene) (e : FederatedPointerEvent) (w : World)
    (first second : IViewportTouch) (rest : list IViewportTouch) (d : float) :
  paused (self w) = false -> active (self w) = true ->
  touches (input w) = first :: second :: rest ->
  previousDistance first second = Some d -> truthy d = true ->
  let r := record e (toParent S (parent w) (global e)) first second in
  let input' := mkInput (count (input w)) (fst r :: snd r :: rest) in
  let c := commit S (self w) d (fst r) (snd r) (parent w) in
  move S e w = (true, fst (fst c), mkWorld (snd (fst c)) (snd c) input').
Proof.
  intros Hp Ha Ht Hd Hy. unfold move. rewrite Hp, Ha, Ht. simpl.
  destruct (record e (toParent S (parent w) (global e)) first second)
    as [f' s']. simpl.
  rewrite Hd, Hy.
  destruct (commit S (self w) d f' s' (parent w)) as [[evs p'] v'].
  reflexivity.
Qed.

Lemma move_cases (S : Scene) (e : FederatedPointerEvent) (w : World) :
  move S e w = (false, [], w)
  \/ (exists first second rest,
        paused (self w) = false /\ active (self w) = true
        /\ touches (input w) = first :: second :: rest
        /\ unresolved first second = true)
  \/ (exists first second rest d,
        paused (self w) = false /\ active (self w) = true
        /\ touches (input w) = first :: second :: rest
        /\ previousDistance first second = Some d /\ truthy d = true).
Proof.
  destruct (paused (self w)) eqn:Hp; [left; apply move_idle; auto|].
  destruct (active (self w)) eqn:Ha; [|left; apply move_idle; auto].
  destruct (touches (input w)) as [|first [|second rest]] eqn:Ht;
    try (left; apply move_few_contacts; rewrite Ht; simpl; lia).
  destruct (unresolved first second) eqn:Hu.
  - right; left. exists first, second, rest. auto.
  - right; right. unfold unresolved in Hu.
    destruct (previousDistance first second) as [d|] eqn:Hd; [|discriminate].
    apply negb_false_iff in Hu.
    exists first, second, rest, d. auto.
Qed.

(** The three parts of what [commit] returns. *)
Lemma commit_self (S : Scene) (p : Pinch) (d : float)
    (first second : IViewportTouch) (v : Viewport) :
  snd (fst (commit S p d first second v))
  = set_moved p (midpoint (asPointData (last first)) (asPointData (last second))).
Proof.
  unfold commit.
  destruct (anchor S (options p) _ _ _) as [ev3 v3].
  destruct (drag (options p) _ (lastCenter p) v3) as [ev4 v4].
  reflexivity.
Qed.

Lemma commit_events (S : Scene) (p : Pinch) (d : float)
    (first second : IViewportTouch) (v : Viewport) :
  exists evs,
    fst (fst (commit S p d first second v))
    = zoomed
        (applyChange (options p)
           (scaleChange (options p) d
              (currentDistance (asPointData (last first))
                               (asPointData (last second))) v) v)
        (midpoint (asPointData (last first)) (asPointData (last second)))
      :: evs
    /\ forallb (fun ev => negb (is_pinch_start ev || is_pinch_end ev)) evs = true.
Proof.
  unfold commit.
  destruct (anchor S (options p) _ _ _) as [ev3 v3] eqn:E3.
  destruct (drag (options p) _ (lastCenter p) v3) as [ev4 v4] eqn:E4.
  exists (ev3 ++ ev4). split; [reflexivity|].
  rewrite forallb_app.
  unfold anchor in E3. unfold drag in E4.
  destruct (center (options p));
    destruct (noDrag (options p)); destruct (lastCenter p);
    inversion E3; inversion E4; reflexivity.
Qed.

Lemma anchor_scale (S : Scene) (o : IPinchOptions) (point : Point)
    (oldPoint : option PointData) (v : Viewport) :
  scale_x (snd (anchor S o point oldPoint v)) = scale_x v /\
  scale_y (snd (anchor S o point oldPoint v)) = scale_y v.
Proof. unfold anchor. destruct (center o); split; reflexivity. Qed.

Lemma drag_scale (o : IPinchOptions) (point : Point)
    (lc : option PointData) (v : Viewport) :
  scale_x (snd (drag o point lc v)) = scale_x v /\
  scale_y (snd (drag o point lc v)) = scale_y v.
Proof.
  unfold drag. destruct (noDrag o), lc; split; reflexivity.
Qed.

Lemma commit_viewport (S : Scene) (p : Pinch) (d : float)
    (first second : IViewportTouch) (v : Viewport) :
  let o := options p in
  let a := asPointData (last first) in
  let b := asPointData (last second) in
  let v1 := applyChange o (scaleChange o d (currentDistance a b) v) v in
  let oldPoint := match center o with
                  | None => Some (toViewport S v (midpoint a b))
                  | Some _ => None
                  end in
  snd (commit S p d first second v)
  = snd (drag o (midpoint a b) (lastCenter p)
           (snd (anchor S o (midpoint a b) oldPoint (runClamp S v1)))).
Proof.
  unfold commit.
  destruct (anchor S (options p) _ _ _) as [ev3 v3].
  simpl.
  destruct (drag (options p) _ (lastCenter p) v3) as [ev4 v4].
  reflexivity.
Qed.




(** ** The example worlds are reached by calls *)

Lemma armed_world_reached :
  snd (run flat_scene [Down] (fresh_world DEFAULT_PINCH_OPTIONS two_fresh))
  = armed_world DEFAULT_PINCH_OPTIONS unit_viewport two_fresh.
Proof. reflexivity. Qed.

Lemma pinching_world_reached :
  snd (run flat_scene [Down; Move (at_ 1 0 0); Move (at_ 2 100 0)]
         (fresh_world DEFAULT_PINCH_OPTIONS two_fresh))
  = pinching_world DEFAULT_PINCH_OPTIONS unit_viewport two_placed.
Proof. vm_compute. reflexivity. Qed.

Lemma coincident_world_reached :
  snd (run flat_scene [Down; Move (at_ 1 5 5); Move (at_ 2 5 5)]
         (fresh_world DEFAULT_PINCH_OPTIONS two_fresh))
  = pinching_world DEFAULT_PINCH_OPTIONS unit_viewport two_coincident.
Proof. vm_compute. reflexivity. Qed.

Lemma dragging_world_reached :
  snd (run flat_scene
         [Down; Move (at_ 1 0 0); Move (at_ 2 100 0); Move (at_ 2 200 0)]
         (fresh_world centred_options two_fresh))
  = dragging_world centred_options.
Proof. vm_compute. reflexivity. Qed.

(** ** Events and sessions *)

Lemma occurrences_cons (f : Emit -> bool) (ev : Emit) (evs : list Emit) :
  occurrences f (ev :: evs)
  = ((if f ev then 1 else 0) + occurrences f evs)%nat.
Proof. unfold occurrences. simpl. destruct (f ev); reflexivity. Qed.

Lemma occurrences_app (f : Emit -> bool) (evs evs' : list Emit) :
  occurrences f (evs ++ evs') = (occurrences f evs + occurrences f evs')%nat.
Proof. unfold occurrences. now rewrite filter_app, length_app. Qed.

Lemma no_session_events (evs : list Emit) :
  forallb (fun ev => negb (is_pinch_start ev || is_pinch_end ev)) evs = true ->
  occurrences is_pinch_start evs = 0%nat /\ occurrences is_pinch_end evs = 0%nat.
Proof.
  induction evs as [|ev evs IH]; simpl; [split; reflexivity|].
  intros H. apply andb_true_iff in H as (H1 & H2).
  apply negb_true_iff, orb_false_iff in H1 as (Hs & He).
  rewrite !occurrences_cons, Hs, He. apply IH in H2. lia.
Qed.

Lemma known_le_length (ts : list IViewportTouch) :
  (known ts <= length ts)%nat.
Proof. unfold known. apply filter_length_le. Qed.

Lemma known_two (first second : IViewportTouch) (rest : list IViewportTouch)
    (d : float) :
  previousDistance first second = Some d ->
  (2 <= known (first :: second :: rest))%nat.
Proof.
  intros H. apply previousDistance_Some in H as (a & b & Ha & Hb & _).
  unfold known. simpl. rewrite Ha, Hb. simpl. lia.
Qed.

Lemma call_coherent (S : Scene) (c : Call) (w : World) :
  coherent (self w) -> coherent (self (world_of (call S c w))).
Proof.
  intros (J1 & J2). destruct c as [|e| |b v i]; simpl.
  - unfold down, world_of.
    destruct (2 <=? count (input w))%nat; simpl; [|split; assumption].
    split; simpl; [reflexivity|]. intros H. split; [reflexivity|].
    now apply J2.
  - destruct (move_cases S e w)
      as [H | [(f & s & r & Hp & Ha & Ht & Hu)
             | (f & s & r & d & Hp & Ha & Ht & Hd & Hy)]].
    + rewrite H. split; assumption.
    + rewrite (move_unresolved S e w Hp Ha Ht Hu).
      destruct (pinching (self w)) eqn:Hq; unfold world_of; simpl;
        (split; simpl; [intros _; exact Ha | exact J2]).
    + rewrite (move_commits S e w Hp Ha Ht Hd Hy).
      unfold world_of. simpl. rewrite commit_self.
      split; simpl; auto.
  - unfold up, world_of.
    destruct (pinching (self w) && (length (touches (input w)) <=? 1)%nat);
      simpl; [|split; assumption].
    split; simpl; [discriminate|]. intros H. now contradiction H.
  - unfold host, world_of. simpl. split; assumption.
Qed.

Lemma call_settled (S : Scene) (c : Call) (w : World) :
  settled w -> allowed c w -> settled (world_of (call S c w)).
Proof.
  intros (L1 & L2) Hc. destruct c as [|e| |b v i]; simpl.
  - unfold down, world_of.
    destruct (2 <=? count (input w))%nat; simpl; split; assumption.
  - destruct (move_cases S e w)
      as [H | [(f & s & r & Hp & Ha & Ht & Hu)
             | (f & s & r & d & Hp & Ha & Ht & Hd & Hy)]].
    + rewrite H. split; assumption.
    + rewrite (move_unresolved S e w Hp Ha Ht Hu).
      destruct (pinching (self w)) eqn:Hq; unfold world_of; simpl.
      * split; simpl; [intros _; exact Hq|]. rewrite Hq. discriminate.
      * split; simpl; [reflexivity | discriminate].
    + assert (Hq : pinching (self w) = true).
      { destruct (pinching (self w)); [reflexivity|].
        pose proof (L2 eq_refl) as Hk. rewrite Ht in Hk.
        pose proof (@known_two f s r d Hd). lia. }
      rewrite (move_commits S e w Hp Ha Ht Hd Hy).
      unfold world_of. simpl. rewrite commit_self.
      split; simpl; [intros _; exact Hq|]. rewrite Hq. discriminate.
  - unfold up, world_of.
    destruct (pinching (self w)) eqn:Hq; simpl.
    + destruct (Nat.leb_spec (length (touches (input w))) 1) as [Hl | Hl];
        simpl.
      * split; simpl; [intros H; now contradiction H|].
        intros _. pose proof (known_le_length (touches (input w))). lia.
      * split; [intros _; exact Hq|]. rewrite Hq. discriminate.
    + split; [intros H; rewrite Hq; exact (L1 H)|].
      intros _. exact (L2 eq_refl).
  - unfold host, world_of. simpl. simpl in Hc. split; simpl; [exact L1|].
    intros Hq. specialize (L2 Hq). lia.
Qed.

(** Every call keeps the count of [pinch-start] in step with [pinching]. *)
Lemma call_balance (S : Scene) (c : Call) (w : World) :
  (occurrences is_pinch_start (events_of (call S c w))
   + b2n (pinching (self w)))%nat
  = (occurrences is_pinch_end (events_of (call S c w))
     + b2n (pinching (self (world_of (call S c w)))))%nat.
Proof.
  destruct c as [|e| |b v i]; simpl.
  - unfold down, events_of, world_of.
    destruct (2 <=? count (input w))%nat; reflexivity.
  - destruct (move_cases S e w)
      as [H | [(f & s & r & Hp & Ha & Ht & Hu)
             | (f & s & r & d & Hp & Ha & Ht & Hd & Hy)]].
    + rewrite H. reflexivity.
    + rewrite (move_unresolved S e w Hp Ha Ht Hu).
      destruct (pinching (self w)) eqn:Hq; unfold events_of, world_of; simpl;
        rewrite ?Hq; reflexivity.
    + rewrite (move_commits S e w Hp Ha Ht Hd Hy).
      unfold events_of, world_of. simpl. rewrite commit_self.
      destruct (commit_events S (self w) d
                  (fst (record e (toParent S (parent w) (global e)) f s))
                  (snd (record e (toParent S (parent w) (global e)) f s))
                  (parent w)) as (evs & Hev & Hno).
      rewrite Hev, !occurrences_cons.
      apply no_session_events in Hno as (-> & ->). reflexivity.
  - unfold up, events_of, world_of.
    destruct (pinching (self w)) eqn:Hq; simpl; [|now rewrite Hq].
    destruct (length (touches (input w)) <=? 1)%nat; simpl;
      rewrite ?Hq; reflexivity.
  - reflexivity.
Qed.

Lemma run_cons (S : Scene) (c : Call) (cs : list Call) (w : World) :
  run S (c :: cs) w
  = (events_of (call S c w) ++ fst (run S cs (world_of (call S c w))),
     snd (run S cs (world_of (call S c w)))).
Proof.
  simpl. destruct (run S cs (world_of (call S c w))). reflexivity.
Qed.

Lemma run_coherent (S : Scene) (cs : list Call) (w : World) :
  coherent (self w) -> coherent (self (snd (run S cs w))).
Proof.
  revert w. induction cs as [|c cs IH]; intros w H; [exact H|].
  rewrite run_cons. simpl. apply IH. now apply call_coherent.
Qed.

Lemma run_settled (S : Scene) (cs : list Call) (w : World) :
  settled w -> disciplined S cs w -> settled (snd (run S cs w)).
Proof.
  revert w. induction cs as [|c cs IH]; intros w H Hd; [exact H|].
  rewrite run_cons. simpl. destruct Hd as (Hc & Hd).
  apply IH; [|exact Hd]. now apply call_settled.
Qed.

Lemma run_balance (S : Scene) (cs : list Call) (w : World) :
  (occurrences is_pinch_start (fst (run S cs w)) + b2n (pinching (self w)))%nat
  = (occurrences is_pinch_end (fst (run S cs w))
     + b2n (pinching (self (snd (run S cs w)))))%nat.
Proof.
  revert w. induction cs as [|c cs IH]; intros w; [reflexivity|].
  rewrite run_cons. simpl. rewrite !occurrences_app.
  pose proof (call_balance S c w). pose proof (IH (world_of (call S c w))).
  lia.
Qed.

Lemma initial_coherent (w : World) : initial w -> coherent (self w).
Proof.
  unfold initial, coherent. intros ->. simpl.
  split; [discriminate|]. intros H. now contradiction H.
Qed.

(** ** The scale step of [move] *)

(** C1, as amended.  In every [move] that runs a transform update, the scale
    a listener of [zoomed] sees is the old scale plus, on each active axis,
    [(1 - previous / current) * percent * axisScale], where [previous] is the
    distance between the positions the two contacts had before the call,
    [current] the distance between their positions after the event was
    recorded, with [0] replaced by [0.0000000001], and [axisScale] is the x
    scale whenever x is active (axis ['all'] or ['x']) and the y scale only
    for axis ['y'].  Axes that are not active keep their scale, and without a
    clamp plugin this is also the scale the call leaves behind. *)
Theorem move_adds_scale_delta (S : Scene) (e : FederatedPointerEvent)
    (w : World) (first second : IViewportTouch) (rest : list IViewportTouch)
    (a b : PointData) :
  paused (self w) = false -> active (self w) = true ->
  touches (input w) = first :: second :: rest ->
  last first = Some a -> last second = Some b ->
  truthy (distance a b) = true ->
  let o := options (self w) in
  let v := parent w in
  let p := toParent S v (global e) in
  let a' := if Z.eqb (id first) (pointerId e) then p else a in
  let b' := if Z.eqb (id first) (pointerId e) then b
            else if Z.eqb (id second) (pointerId e) then p else b in
  let previous := distance a b in
  let current := if PrimFloat.eqb (distance a' b') 0 then epsilon
                 else distance a' b' in
  let delta := (1 - previous / current) * percent o
               * (if isAxisX o then scale_x v else scale_y v) in
  exists vz evs,
    events_of (move S e w) = zoomed vz (midpoint a' b') :: evs
    /\ scale_x vz = (if isAxisX o then scale_x v + delta else scale_x v)
    /\ scale_y vz = (if isAxisY o then scale_y v + delta else scale_y v)
    /\ (clampZoom S = None ->
        scale_x (parent (world_of (move S e w))) = scale_x vz /\
        scale_y (parent (world_of (move S e w))) = scale_y vz).
Proof.
  intros Hp Ha Ht Hfa Hsb Hy o v p a' b' previous current delta.
  assert (Hd : previousDistance first second = Some (distance a b))
    by (unfold previousDistance; now rewrite Hfa, Hsb).
  rewrite (move_commits S e w Hp Ha Ht Hd Hy).
  unfold events_of, world_of. simpl.
  destruct (record_last e p first second) as (H1 & H2 & _).
  fold p. set (r := record e p first second) in *.
  assert (Ea : asPointData (last (fst r)) = a').
  { rewrite H1, Hfa. unfold a'.
    now destruct (Z.eqb (id first) (pointerId e)). }
  assert (Eb : asPointData (last (snd r)) = b').
  { rewrite H2, Hsb. unfold b'.
    now destruct (Z.eqb (id first) (pointerId e)),
                 (Z.eqb (id second) (pointerId e)). }
  destruct (commit_events S (self w) (distance a b) (fst r) (snd r) v)
    as (evs & Hev & _).
  rewrite Ea, Eb in Hev.
  eexists. exists evs. split; [exact Hev|].
  assert (Hx : scale_x (applyChange o
                 (scaleChange o (distance a b) (currentDistance a' b') v) v)
               = (if isAxisX o then scale_x v + delta else scale_x v)).
  { unfold applyChange, scaleChange, delta, previous, current, currentDistance.
    destruct (isAxisX o), (isAxisY o); reflexivity. }
  assert (Hyy : scale_y (applyChange o
                 (scaleChange o (distance a b) (currentDistance a' b') v) v)
               = (if isAxisY o then scale_y v + delta else scale_y v)).
  { unfold applyChange, scaleChange, delta, previous, current, currentDistance.
    destruct (isAxisX o), (isAxisY o); reflexivity. }
  split; [exact Hx|]. split; [exact Hyy|].
  intros Hc.
  change (record e (toParent S (parent w) (global e)) first second) with r.
  rewrite commit_viewport, Ea, Eb.
  rewrite (proj1 (drag_scale _ _ _ _)), (proj2 (drag_scale _ _ _ _)).
  rewrite (proj1 (anchor_scale _ _ _ _ _)), (proj2 (anchor_scale _ _ _ _ _)).
  unfold runClamp. rewrite Hc. split; reflexivity.
Qed.

Lemma move_adds_scale_delta_witness :
  exists vz evs,
    events_of (move flat_scene (at_ 2 200 0)
                 (pinching_world DEFAULT_PINCH_OPTIONS unit_viewport two_placed))
    = zoomed vz (mkPoint 100 0) :: evs
    /\ scale_x vz = 1.5 /\ scale_y vz = 1.5.
Proof.
  destruct (move_adds_scale_delta flat_scene (at_ 2 200 0)
              (pinching_world DEFAULT_PINCH_OPTIONS unit_viewport two_placed)
              (first := mkTouch 1 (Some (mkPoint 0 0)))
              (second := mkTouch 2 (Some (mkPoint 100 0)))
              (rest := []) (a := mkPoint 0 0) (b := mkPoint 100 0)
              eq_refl eq_refl eq_refl eq_refl eq_refl
              ltac:(vm_compute; reflexivity))
    as (vz & evs & H1 & H2 & H3 & _).
  exists vz, evs. split; [exact H1|].
  split; [rewrite H2 | rewrite H3]; vm_compute; reflexivity.
Defined.

(** C1 as the spec words it fails for axis ['all'] on a viewport whose two
    scales differ: the code multiplies by the x scale, the spec's "else y"
    by the y scale.  Fingers going from 100 apart to 200 apart on a viewport
    of scale (2, 3) add 1 to both scales, not 1.5. *)
Lemma scale_delta_axis_all_counterexample :
  let w := pinching_world DEFAULT_PINCH_OPTIONS
             (mkViewport 0 0 2 3 800 600) two_placed in
  let previous := distance (mkPoint 0 0) (mkPoint 100 0) in
  let current := distance (mkPoint 0 0) (mkPoint 200 0) in
  exists vz evs,
    events_of (move flat_scene (at_ 2 200 0) w)
    = zoomed vz (mkPoint 100 0) :: evs
    /\ scale_x vz = 3
    /\ scale_x (parent w) + spec_scaleDelta (options (self w)) previous current
                              (parent w) = 3.5
    /\ scale_x vz
       <> scale_x (parent w)
          + spec_scaleDelta (options (self w)) previous current (parent w).
Proof.
  eexists. eexists. split; [vm_compute; reflexivity|].
  split; [reflexivity|]. split; [vm_compute; reflexivity|].
  intros H. float_discriminate H.
Qed.




(** ** The fixed centre *)




(** ** Calls that do not resolve the geometry *)

(** C4, as amended.  A [move] made while active with two tracked contacts of
    which one has no recorded position yet leaves the viewport's scale and
    position unchanged; it returns true when the plugin is not paused (and
    false when it is). *)
Theorem move_without_positions (S : Scene) (e : FederatedPointerEvent)
    (w : World) (first second : IViewportTouch) (rest : list IViewportTouch) :
  active (self w) = true ->
  touches (input w) = first :: second :: rest ->
  last first = None \/ last second = None ->
  parent (world_of (move S e w)) = parent w
  /\ result_of (move S e w) = negb (paused (self w)).
Proof.
  intros Ha Ht Hl. destruct (paused (self w)) eqn:Hp.
  - rewrite move_idle by auto. split; reflexivity.
  - rewrite (move_unresolved S e w Hp Ha Ht (unresolved_without_position _ _ Hl)).
    destruct (pinching (self w)); split; reflexivity.
Qed.

Lemma move_without_positions_witness :
  parent (world_of (move flat_scene (at_ 1 0 0)
                      (armed_world DEFAULT_PINCH_OPTIONS unit_viewport two_fresh)))
  = unit_viewport
  /\ result_of (move flat_scene (at_ 1 0 0)
                  (armed_world DEFAULT_PINCH_OPTIONS unit_viewport two_fresh))
     = true.
Proof.
  apply (move_without_positions flat_scene (at_ 1 0 0)
           (armed_world DEFAULT_PINCH_OPTIONS unit_viewport two_fresh)
           (first := mkTouch 1 None) (second := mkTouch 2 None) (rest := [])
           eq_refl eq_refl (or_introl eq_refl)).
Defined.

(** C4 as stated fails on the result: the first [move] after two fingers went
    down, with no position recorded yet, reports true. *)
Lemma move_without_positions_counterexample :
  let w := armed_world DEFAULT_PINCH_OPTIONS unit_viewport two_fresh in
  active (self w) = true
  /\ touches (input w) = [mkTouch 1 None; mkTouch 2 None]
  /\ result_of (move flat_scene (at_ 1 0 0) w) <> false.
Proof.
  repeat split. vm_compute. discriminate.
Qed.

(** C5.  The code at the failing input: both contacts have a recorded
    position, the same one, so the previous distance is the number [0] and
    not [null]; the first finger then moves 5 to the right.  [if (last)]
    treats [0] like [null]: no transform update is run, nothing is emitted
    and the viewport is as before. *)
Theorem move_skips_zero_previous_distance :
  let w := pinching_world DEFAULT_PINCH_OPTIONS unit_viewport two_coincident in
  let r := move flat_scene (at_ 1 10 5) w in
  previousDistance (mkTouch 1 (Some (mkPoint 5 5)))
                   (mkTouch 2 (Some (mkPoint 5 5))) = Some 0
  /\ result_of r = true
  /\ events_of r = []
  /\ parent (world_of r) = parent w
  /\ self (world_of r) = self w.
Proof.
  repeat split; vm_compute; reflexivity.
Qed.

(** ** The [pinch-start] event *)

(** C6, as amended.  [pinch-start] is emitted by [move] only, alone, by a
    call that finds [pinching] false and leaves it true; in particular by
    the first [move] of an active, unpaused plugin with two tracked contacts
    of which one has no recorded position.  It is emitted at most once per
    session: after any sequence of calls from a newly constructed plugin,
    the number of [pinch-start] events is the number of [pinch-end] events,
    plus one while [pinching] is true. *)
Theorem pinch_start_once_per_session (S : Scene) :
  (forall cs w, initial w ->
     occurrences is_pinch_start (fst (run S cs w))
     = (occurrences is_pinch_end (fst (run S cs w))
        + b2n (pinching (self (snd (run S cs w)))))%nat)
  /\ (forall w, occurrences is_pinch_start (events_of (down w)) = 0%nat
                /\ occurrences is_pinch_start (events_of (up w)) = 0%nat)
  /\ (forall e w,
        occurrences is_pinch_start (events_of (move S e w)) <> 0%nat ->
        pinching (self w) = false
        /\ events_of (move S e w) = [pinch_start (parent w)]
        /\ pinching (self (world_of (move S e w))) = true)
  /\ (forall e w first second rest,
        paused (self w) = false -> active (self w) = true ->
        pinching (self w) = false ->
        touches (input w) = first :: second :: rest ->
        last first = None \/ last second = None ->
        events_of (move S e w) = [pinch_start (parent w)]).
Proof.
  split; [|split; [|split]].
  - intros cs w Hi. pose proof (run_balance S cs w) as H.
    assert (Hq : pinching (self w) = false)
      by (unfold initial in Hi; rewrite Hi; reflexivity).
    rewrite Hq in H. simpl in H. lia.
  - intros w. unfold down, up, events_of.
    destruct (2 <=? count (input w))%nat;
      destruct (pinching (self w) && (length (touches (input w)) <=? 1)%nat);
      split; reflexivity.
  - intros e w Hz.
    destruct (move_cases S e w)
      as [H | [(f & s & r & Hp & Ha & Ht & Hu)
             | (f & s & r & d & Hp & Ha & Ht & Hd & Hy)]].
    + rewrite H in Hz. now contradiction Hz.
    + rewrite (move_unresolved S e w Hp Ha Ht Hu) in *.
      destruct (pinching (self w)).
      * now contradiction Hz.
      * repeat split.
    + exfalso. apply Hz.
      rewrite (move_commits S e w Hp Ha Ht Hd Hy).
      unfold events_of. simpl.
      destruct (commit_events S (self w) d
                  (fst (record e (toParent S (parent w) (global e)) f s))
                  (snd (record e (toParent S (parent w) (global e)) f s))
                  (parent w)) as (evs & Hev & Hno).
      rewrite Hev, occurrences_cons.
      apply no_session_events in Hno as (-> & _). reflexivity.
  - intros e w first second rest Hp Ha Hq Ht Hl.
    rewrite (move_unresolved S e w Hp Ha Ht
               (unresolved_without_position _ _ Hl)), Hq.
    reflexivity.
Qed.

Lemma pinch_start_once_per_session_witness :
  occurrences is_pinch_start
    (fst (run flat_scene
            [Down; Move (at_ 1 0 0); Move (at_ 2 100 0); Move (at_ 2 200 0);
             Host false unit_viewport one_fresh; Up]
            (fresh_world DEFAULT_PINCH_OPTIONS two_fresh))) = 1%nat
  /\ pinching (self (world_of (move flat_scene (at_ 1 0 0)
        (armed_world DEFAULT_PINCH_OPTIONS unit_viewport two_fresh)))) = true
  /\ events_of (move flat_scene (at_ 2 100 0)
        (armed_world DEFAULT_PINCH_OPTIONS unit_viewport two_fresh))
     = [pinch_start unit_viewport].
Proof.
  destruct (pinch_start_once_per_session flat_scene) as (H1 & _ & H3 & H4).
  split; [|split].
  - rewrite (H1 _ (fresh_world DEFAULT_PINCH_OPTIONS two_fresh) eq_refl).
    vm_compute. reflexivity.
  - apply (H3 (at_ 1 0 0)
              (armed_world DEFAULT_PINCH_OPTIONS unit_viewport two_fresh)).
    vm_compute. discriminate.
  - apply (H4 (at_ 2 100 0)
              (armed_world DEFAULT_PINCH_OPTIONS unit_viewport two_fresh)
              (mkTouch 1 None) (mkTouch 2 None) []
              eq_refl eq_refl eq_refl eq_refl (or_introl eq_refl)).
Defined.

(** C6 as stated fails on when the event is emitted: the very first [move]
    after two fingers went down emits [pinch-start], although the second
    contact has no recorded position, before the call or after it. *)
Lemma pinch_start_counterexample :
  let r := run flat_scene [Down; Move (at_ 1 0 0)]
             (fresh_world DEFAULT_PINCH_OPTIONS two_fresh) in
  fst r = [pinch_start unit_viewport]
  /\ map last (touches (input (snd r))) = [Some (mkPoint 0 0); None].
Proof.
  split; vm_compute; reflexivity.
Qed.

(** ** [up] and [down] *)

(** C7. [up()] while pinching with at most one contact left ends the session:
    [active], [pinching] and [moved] become false, [lastCenter] becomes null,
    [pinch-end] is emitted and the result is true; options, pause flag,
    viewport and contacts are not touched.  In every other case the result is
    false, nothing is emitted and the world is unchanged. *)
Theorem up_ends_session (w : World) :
  (pinching (self w) = true -> (length (touches (input w)) <= 1)%nat ->
   let r := up w in
   result_of r = true
   /\ events_of r = [pinch_end (parent w)]
   /\ active (self (world_of r)) = false
   /\ pinching (self (world_of r)) = false
   /\ moved (self (world_of r)) = false
   /\ lastCenter (self (world_of r)) = None
   /\ options (self (world_of r)) = options (self w)
   /\ paused (self (world_of r)) = paused (self w)
   /\ parent (world_of r) = parent w
   /\ input (world_of r) = input w)
  /\ (pinching (self w) = false \/ (1 < length (touches (input w)))%nat ->
      up w = (false, [], w)).
Proof.
  unfold up, result_of, events_of, world_of. split.
  - intros Hp Hl. rewrite Hp.
    destruct (Nat.leb_spec (length (touches (input w))) 1) as [_ | H];
      [|lia].
    simpl. repeat split.
  - intros [Hp | Hl].
    + now rewrite Hp.
    + destruct (Nat.leb_spec (length (touches (input w))) 1) as [H | _];
        [lia|].
      now rewrite andb_false_r.
Qed.

Lemma up_ends_session_witness :
  events_of (up (pinching_world DEFAULT_PINCH_OPTIONS unit_viewport one_fresh))
  = [pinch_end unit_viewport]
  /\ up (pinching_world DEFAULT_PINCH_OPTIONS unit_viewport two_fresh)
     = (false, [], pinching_world DEFAULT_PINCH_OPTIONS unit_viewport two_fresh).
Proof.
  split.
  - destruct (up_ends_session
                (pinching_world DEFAULT_PINCH_OPTIONS unit_viewport one_fresh))
      as (H & _).
    apply H; simpl; [reflexivity | lia].
  - destruct (up_ends_session
                (pinching_world DEFAULT_PINCH_OPTIONS unit_viewport two_fresh))
      as (_ & H).
    apply H. right. simpl. lia.
Defined.

(** C8. [down()] returns true exactly when the input manager counts at least
    two contacts; it then sets [active] and changes nothing else.  With fewer
    contacts it returns false and leaves the world as it was. *)
Theorem down_activation_gate (w : World) :
  (result_of (down w) = true <-> (2 <= count (input w))%nat)
  /\ ((2 <= count (input w))%nat ->
      down w = (true, [], mkWorld (set_active (self w) true) (parent w) (input w))
      /\ active (self (world_of (down w))) = true)
  /\ ((count (input w) < 2)%nat -> down w = (false, [], w)).
Proof.
  unfold down, result_of, world_of.
  destruct (Nat.leb_spec 2 (count (input w))) as [H | H]; simpl.
  - repeat split; auto; intros; lia.
  - repeat split; try discriminate; intros; lia.
Qed.

Lemma down_activation_gate_witness :
  active (self (world_of (down (fresh_world DEFAULT_PINCH_OPTIONS two_fresh)))) = true
  /\ down (fresh_world DEFAULT_PINCH_OPTIONS one_fresh)
     = (false, [], fresh_world DEFAULT_PINCH_OPTIONS one_fresh).
Proof.
  split.
  - destruct (down_activation_gate (fresh_world DEFAULT_PINCH_OPTIONS two_fresh))
      as (_ & H & _).
    apply H. simpl. lia.
  - destruct (down_activation_gate (fresh_world DEFAULT_PINCH_OPTIONS one_fresh))
      as (_ & _ & H).
    apply H. simpl. lia.
Defined.

(** ** Invariants of the plugin state *)

(** C9, as amended.  After any sequence of calls from a newly constructed
    plugin, whatever the host does in between, [pinching] implies [active],
    and [lastCenter] is non-null only while [active] and [moved] are true.
    [lastCenter] is non-null only while [pinching] is true provided
    positions are recorded by [move] alone: at most one contact has a
    position when the plugin is constructed, and the host never raises the
    number of contacts that have one. *)
Theorem session_invariants (S : Scene) (cs : list Call) (w : World) :
  initial w ->
  let w' := snd (run S cs w) in
  (pinching (self w') = true -> active (self w') = true)
  /\ (lastCenter (self w') <> None ->
      active (self w') = true /\ moved (self w') = true)
  /\ ((known (touches (input w)) <= 1)%nat -> disciplined S cs w ->
      lastCenter (self w') <> None -> pinching (self w') = true).
Proof.
  intros Hi w'.
  destruct (@run_coherent S cs w (initial_coherent Hi)) as (J1 & J2).
  split; [exact J1|]. split; [exact J2|].
  intros Hk Hd.
  assert (Hs : settled w).
  { unfold settled. unfold initial in Hi. rewrite Hi. simpl.
    split; [intros H; now contradiction H | intros _; exact Hk]. }
  exact (proj1 (@run_settled S cs w Hs Hd)).
Qed.

Lemma session_invariants_witness :
  let w' := snd (run flat_scene
     [Down; Move (at_ 1 0 0); Move (at_ 2 100 0); Move (at_ 2 200 0);
      Host false unit_viewport
        (mkInput 3 [mkTouch 1 (Some (mkPoint 0 0)); mkTouch 2 None;
                    mkTouch 3 None]);
      Move (at_ 3 50 50)]
     (fresh_world DEFAULT_PINCH_OPTIONS two_fresh)) in
  active (self w') = true /\ moved (self w') = true
  /\ pinching (self w') = true.
Proof.
  intros w'.
  destruct (@session_invariants flat_scene
              [Down; Move (at_ 1 0 0); Move (at_ 2 100 0); Move (at_ 2 200 0);
               Host false unit_viewport
                 (mkInput 3 [mkTouch 1 (Some (mkPoint 0 0)); mkTouch 2 None;
                             mkTouch 3 None]);
               Move (at_ 3 50 50)]
              (fresh_world DEFAULT_PINCH_OPTIONS two_fresh) eq_refl)
    as (H1 & H2 & H3).
  split; [|split].
  - apply H1. vm_compute. reflexivity.
  - apply H2. vm_compute. discriminate.
  - apply H3.
    + vm_compute. lia.
    + vm_compute. repeat split; lia.
    + vm_compute. discriminate.
Defined.

(** C9 as stated fails when the two contacts already have recorded positions
    at the first [move] of a session: that call runs a transform update and
    stores [lastCenter], and [pinching] stays false. *)
Lemma session_invariants_counterexample :
  let w := fresh_world DEFAULT_PINCH_OPTIONS two_placed in
  let w' := snd (run flat_scene [Down; Move (at_ 2 200 0)] w) in
  initial w
  /\ lastCenter (self w') = Some (mkPoint 100 0)
  /\ pinching (self w') = false.
Proof.
  repeat split.
Qed.

(** ** Pointers that are not tracked *)




(** * Further properties of the plugin *)

(** ** Helper facts *)

Lemma call_options (S : Scene) (c : Call) (w : World) :
  options (self (world_of (call S c w))) = options (self w).
Proof.
  destruct c as [|e| |b v i]; simpl.
  - unfold down, world_of. destruct (2 <=? count (input w))%nat; reflexivity.
  - destruct (move_cases S e w)
      as [H | [(f & s & r & Hp & Ha & Ht & Hu)
             | (f & s & r & d & Hp & Ha & Ht & Hd & Hy)]].
    + now rewrite H.
    + rewrite (move_unresolved S e w Hp Ha Ht Hu).
      destruct (pinching (self w)); reflexivity.
    + rewrite (move_commits S e w Hp Ha Ht Hd Hy).
      unfold world_of. simpl. now rewrite commit_self.
  - unfold up, world_of.
    destruct (pinching (self w) && (length (touches (input w)) <=? 1)%nat);
      reflexivity.
  - reflexivity.
Qed.

Lemma call_paused (S : Scene) (c : Call) (w : World) :
  is_plugin_call c = true ->
  paused (self (world_of (call S c w))) = paused (self w).
Proof.
  destruct c as [|e| |b v i]; simpl; intros Hc; try discriminate.
  - unfold down, world_of. destruct (2 <=? count (input w))%nat; reflexivity.
  - destruct (move_cases S e w)
      as [H | [(f & s & r & Hp & Ha & Ht & Hu)
             | (f & s & r & d & Hp & Ha & Ht & Hd & Hy)]].
    + now rewrite H.
    + rewrite (move_unresolved S e w Hp Ha Ht Hu).
      destruct (pinching (self w)); reflexivity.
    + rewrite (move_commits S e w Hp Ha Ht Hd Hy).
      unfold world_of. simpl. now rewrite commit_self.
  - unfold up, world_of.
    destruct (pinching (self w) && (length (touches (input w)) <=? 1)%nat);
      reflexivity.
Qed.

(** The contacts a [move] leaves when it gets past its two guards. *)
Lemma move_touches (S : Scene) (e : FederatedPointerEvent) (w : World)
    (first second : IViewportTouch) (rest : list IViewportTouch) :
  paused (self w) = false -> active (self w) = true ->
  touches (input w) = first :: second :: rest ->
  let r := record e (toParent S (parent w) (global e)) first second in
  input (world_of (move S e w))
  = mkInput (count (input w)) (fst r :: snd r :: rest).
Proof.
  intros Hp Ha Ht r.
  destruct (unresolved first second) eqn:Hu.
  - rewrite (move_unresolved S e w Hp Ha Ht Hu).
    destruct (pinching (self w)); reflexivity.
  - unfold unresolved in Hu.
    destruct (previousDistance first second) as [d|] eqn:Hd; [|discriminate].
    apply negb_false_iff in Hu.
    rewrite (move_commits S e w Hp Ha Ht Hd Hu). reflexivity.
Qed.

Lemma known_cons (t : IViewportTouch) (ts : list IViewportTouch) :
  known (t :: ts) = (b2n (is_some (last t)) + known ts)%nat.
Proof. unfold known. simpl. destruct (last t); reflexivity. Qed.

(** ** The axis option *)


(** ** The result of [move] *)

(** X3.  [move] reports "handled" exactly when the plugin is not paused, is
    active and at least two contacts are tracked.  When it reports "not
    handled" it has emitted nothing and changed nothing: plugin, viewport
    and contacts are as before. *)
Theorem move_handled_iff (S : Scene) (e : FederatedPointerEvent) (w : World) :
  (result_of (move S e w) = true <->
   paused (self w) = false /\ active (self w) = true
   /\ (2 <= length (touches (input w)))%nat)
  /\ (result_of (move S e w) = false -> move S e w = (false, [], w)).
Proof.
  destruct (move_cases S e w)
    as [H | [(f & s & r & Hp & Ha & Ht & Hu)
           | (f & s & r & d & Hp & Ha & Ht & Hd & Hy)]].
  - split; [|intros _; exact H].
    rewrite H. unfold result_of. simpl. split; [discriminate|].
    intros (Hp & Ha & Hl). exfalso.
    unfold move in H. rewrite Hp, Ha in H. simpl in H.
    destruct (touches (input w)) as [|t [|t' ts]]; simpl in Hl; try lia.
    destruct (record e (toParent S (parent w) (global e)) t t') as [f' s'].
    destruct (previousDistance t t') as [d|].
    + destruct (truthy d).
      * destruct (commit S (self w) d f' s' (parent w)) as [[evs p'] v'].
        discriminate.
      * destruct (pinching (self w)); discriminate.
    + destruct (pinching (self w)); discriminate.
  - rewrite (move_unresolved S e w Hp Ha Ht Hu), Ht.
    destruct (pinching (self w)); unfold result_of; simpl;
      (split; [split; [intros _; repeat split; auto; lia | reflexivity]
              | discriminate]).
  - rewrite (move_commits S e w Hp Ha Ht Hd Hy), Ht.
    unfold result_of; simpl.
    split; [split; [intros _; repeat split; auto; lia | reflexivity]
           | discriminate].
Qed.

Lemma move_handled_iff_witness :
  move flat_scene (at_ 1 0 0) (fresh_world DEFAULT_PINCH_OPTIONS two_fresh)
  = (false, [], fresh_world DEFAULT_PINCH_OPTIONS two_fresh).
Proof.
  destruct (move_handled_iff flat_scene (at_ 1 0 0)
              (fresh_world DEFAULT_PINCH_OPTIONS two_fresh)) as (_ & H).
  apply H. reflexivity.
Defined.

(** ** The contacts *)

(** X5.  [move] never adds, removes or reorders contacts: the ids are the
    same in the same order, [count()] is the same, and every contact after
    the first two is untouched.  It never erases a recorded position: at
    least as many contacts have one afterwards as before. *)
Theorem move_keeps_contacts (S : Scene) (e : FederatedPointerEvent)
    (w : World) :
  let w' := world_of (move S e w) in
  map id (touches (input w')) = map id (touches (input w))
  /\ count (input w') = count (input w)
  /\ skipn 2 (touches (input w')) = skipn 2 (touches (input w))
  /\ (known (touches (input w)) <= known (touches (input w')))%nat.
Proof.
  intros w'.
  destruct (move_cases S e w)
    as [H | [(f & s & r & Hp & Ha & Ht & _)
           | (f & s & r & d & Hp & Ha & Ht & _ & _)]].
  - unfold w'. rewrite H. repeat split. apply Nat.le_refl.
  - unfold w'. rewrite (move_touches S e w Hp Ha Ht), Ht. simpl.
    destruct (record_last e (toParent S (parent w) (global e)) f s)
      as (L1 & L2 & I1 & I2).
    rewrite I1, I2. repeat split.
    rewrite !known_cons, L1, L2.
    destruct (Z.eqb (id f) (pointerId e)), (Z.eqb (id s) (pointerId e)),
      (last f), (last s); simpl; lia.
  - unfold w'. rewrite (move_touches S e w Hp Ha Ht), Ht. simpl.
    destruct (record_last e (toParent S (parent w) (global e)) f s)
      as (L1 & L2 & I1 & I2).
    rewrite I1, I2. repeat split.
    rewrite !known_cons, L1, L2.
    destruct (Z.eqb (id f) (pointerId e)), (Z.eqb (id s) (pointerId e)),
      (last f), (last s); simpl; lia.
Qed.

(** X6.  A [move] that gets past its guards (not paused, active, two
    contacts) stores the event's position, converted to the parent's space,
    in the first of the two tracked contacts whose id is the event's pointer
    id, and leaves every other contact as it was; this holds whether or not
    a transform update follows.  When both tracked contacts have the
    event's id only the first one is written. *)
Theorem move_records_position (S : Scene) (e : FederatedPointerEvent)
    (w : World) (first second : IViewportTouch) (rest : list IViewportTouch) :
  paused (self w) = false -> active (self w) = true ->
  touches (input w) = first :: second :: rest ->
  let p := toParent S (parent w) (global e) in
  touches (input (world_of (move S e w)))
  = if Z.eqb (id first) (pointerId e)
    then mkTouch (id first) (Some p) :: second :: rest
    else if Z.eqb (id second) (pointerId e)
         then first :: mkTouch (id second) (Some p) :: rest
         else first :: second :: rest.
Proof.
  intros Hp Ha Ht p.
  rewrite (move_touches S e w Hp Ha Ht). simpl. fold p. unfold record.
  destruct (Z.eqb (id first) (pointerId e)); [reflexivity|].
  destruct (Z.eqb (id second) (pointerId e)); reflexivity.
Qed.

Lemma move_records_position_witness :
  touches (input (world_of (move flat_scene (at_ 1 30 40)
     (armed_world DEFAULT_PINCH_OPTIONS unit_viewport
        (mkInput 2 [mkTouch 1 None; mkTouch 1 None])))))
  = [mkTouch 1 (Some (mkPoint 30 40)); mkTouch 1 None].
Proof.
  apply (move_records_position flat_scene (at_ 1 30 40)
           (armed_world DEFAULT_PINCH_OPTIONS unit_viewport
              (mkInput 2 [mkTouch 1 None; mkTouch 1 None]))
           (first := mkTouch 1 None) (second := mkTouch 1 None) (rest := [])
           eq_refl eq_refl eq_refl).
Defined.

(** ** The scale across plugin calls *)

Lemma commit_scale (S : Scene) (p : Pinch) (d : float)
    (first second : IViewportTouch) (v : Viewport) :
  clampZoom S = None ->
  exists change,
    scale_x (snd (commit S p d first second v))
    = scale_x (applyChange (options p) change v)
    /\ scale_y (snd (commit S p d first second v))
       = scale_y (applyChange (options p) change v).
Proof.
  intros Hc. eexists. rewrite commit_viewport.
  rewrite (proj1 (drag_scale _ _ _ _)), (proj2 (drag_scale _ _ _ _)).
  rewrite (proj1 (anchor_scale _ _ _ _ _)), (proj2 (anchor_scale _ _ _ _ _)).
  unfold runClamp. rewrite Hc. split; reflexivity.
Qed.

(** Without a clamp plugin a call of the plugin either keeps both scales or
    applies one [change] to the active axes. *)
Lemma call_scale (S : Scene) (c : Call) (w : World) :
  clampZoom S = None -> is_plugin_call c = true ->
  let v := parent w in
  let v' := parent (world_of (call S c w)) in
  (scale_x v' = scale_x v /\ scale_y v' = scale_y v)
  \/ exists change,
       scale_x v' = scale_x (applyChange (options (self w)) change v)
       /\ scale_y v' = scale_y (applyChange (options (self w)) change v).
Proof.
  intros Hc Hp v v'. unfold v'.
  destruct c as [|e| |b v0 i]; simpl; try discriminate.
  - left. unfold down, world_of.
    destruct (2 <=? count (input w))%nat; split; reflexivity.
  - destruct (move_cases S e w)
      as [H | [(f & s & r & Hq & Ha & Ht & Hu)
             | (f & s & r & d & Hq & Ha & Ht & Hd & Hy)]].
    + left. rewrite H. split; reflexivity.
    + left. rewrite (move_unresolved S e w Hq Ha Ht Hu).
      destruct (pinching (self w)); split; reflexivity.
    + right. rewrite (move_commits S e w Hq Ha Ht Hd Hy).
      unfold world_of. simpl. now apply commit_scale.
  - left. unfold up, world_of.
    destruct (pinching (self w) && (length (touches (input w)) <=? 1)%nat);
      split; reflexivity.
Qed.

Lemma applyChange_scale (o : IPinchOptions) (change : float) (v : Viewport) :
  scale_x (applyChange o change v)
  = (if isAxisX o then scale_x v + change else scale_x v)
  /\ scale_y (applyChange o change v)
     = (if isAxisY o then scale_y v + change else scale_y v).
Proof.
  unfold applyChange. destruct (isAxisX o), (isAxisY o); split; reflexivity.
Qed.

(** X2.  Axis restriction.  With no clamp plugin installed, no sequence of
    [down], [move] and [up] calls changes the y scale when the axis option
    is ['x'], nor the x scale when it is ['y']. *)
Theorem axis_restriction (S : Scene) (cs : list Call) (w : World) :
  clampZoom S = None -> forallb is_plugin_call cs = true ->
  (axis (options (self w)) = axis_x ->
   scale_y (parent (snd (run S cs w))) = scale_y (parent w))
  /\ (axis (options (self w)) = axis_y ->
      scale_x (parent (snd (run S cs w))) = scale_x (parent w)).
Proof.
  intros Hc. revert w. induction cs as [|c cs IH]; intros w Hp.
  - split; reflexivity.
  - simpl in Hp. apply andb_true_iff in Hp as (Hp1 & Hp2).
    rewrite run_cons. simpl.
    destruct (IH (world_of (call S c w)) Hp2) as (IHx & IHy).
    rewrite call_options in IHx, IHy.
    destruct (call_scale S c w Hc Hp1) as [(Ex & Ey) | (ch & Ex & Ey)].
    + split; intros Hx; [rewrite (IHx Hx) | rewrite (IHy Hx)]; assumption.
    + destruct (applyChange_scale (options (self w)) ch (parent w))
        as (Ax & Ay).
      rewrite Ax in Ex. rewrite Ay in Ey.
      unfold isAxisX in Ex. unfold isAxisY in Ey.
      split; intros Hx; rewrite Hx in *.
      * rewrite (IHx eq_refl). exact Ey.
      * rewrite (IHy eq_refl). exact Ex.
Qed.

(** Options that zoom the x axis only. *)
Lemma axis_restriction_witness :
  scale_y (parent (snd (run flat_scene
     [Down; Move (at_ 1 0 0); Move (at_ 2 100 0); Move (at_ 2 200 0); Up]
     (fresh_world (mkOptions false 1 1 None axis_x) two_fresh)))) = 1
  /\ scale_x (parent (snd (run flat_scene
     [Down; Move (at_ 1 0 0); Move (at_ 2 100 0); Move (at_ 2 200 0); Up]
     (fresh_world (mkOptions false 1 1 None axis_y) two_fresh)))) = 1.
Proof.
  split.
  - destruct (@axis_restriction flat_scene
                [Down; Move (at_ 1 0 0); Move (at_ 2 100 0);
                 Move (at_ 2 200 0); Up]
                (fresh_world (mkOptions false 1 1 None axis_x) two_fresh)
                eq_refl eq_refl) as (H & _).
    apply H. reflexivity.
  - destruct (@axis_restriction flat_scene
                [Down; Move (at_ 1 0 0); Move (at_ 2 100 0);
                 Move (at_ 2 200 0); Up]
                (fresh_world (mkOptions false 1 1 None axis_y) two_fresh)
                eq_refl eq_refl) as (_ & H).
    apply H. reflexivity.
Defined.

(** X12.  Uniform zoom.  With axis ['all'] and no clamp plugin, a viewport
    whose two scales are equal keeps them equal through any sequence of
    [down], [move] and [up] calls: both axes always receive the same
    change. *)
Theorem uniform_scale_kept (S : Scene) (cs : list Call) (w : World) :
  clampZoom S = None -> forallb is_plugin_call cs = true ->
  axis (options (self w)) = axis_all ->
  scale_x (parent w) = scale_y (parent w) ->
  scale_x (parent (snd (run S cs w))) = scale_y (parent (snd (run S cs w))).
Proof.
  intros Hc. revert w. induction cs as [|c cs IH]; intros w Hp Ha He.
  - exact He.
  - simpl in Hp. apply andb_true_iff in Hp as (Hp1 & Hp2).
    rewrite run_cons. simpl. apply IH; [exact Hp2 | |].
    + now rewrite call_options.
    + destruct (call_scale S c w Hc Hp1) as [(Ex & Ey) | (ch & Ex & Ey)].
      * now rewrite Ex, Ey.
      * destruct (applyChange_scale (options (self w)) ch (parent w))
          as (Ax & Ay).
        rewrite Ex, Ey, Ax, Ay. unfold isAxisX, isAxisY. rewrite Ha.
        now rewrite He.
Qed.

Lemma uniform_scale_kept_witness :
  scale_x (parent (snd (run flat_scene
     [Down; Move (at_ 1 0 0); Move (at_ 2 100 0); Move (at_ 2 200 0)]
     (fresh_world DEFAULT_PINCH_OPTIONS two_fresh))))
  = scale_y (parent (snd (run flat_scene
     [Down; Move (at_ 1 0 0); Move (at_ 2 100 0); Move (at_ 2 200 0)]
     (fresh_world DEFAULT_PINCH_OPTIONS two_fresh)))).
Proof.
  apply (@uniform_scale_kept flat_scene
           [Down; Move (at_ 1 0 0); Move (at_ 2 100 0); Move (at_ 2 200 0)]
           (fresh_world DEFAULT_PINCH_OPTIONS two_fresh)
           eq_refl eq_refl eq_refl eq_refl).
Defined.

(** ** What the plugin never writes *)

(** X7.  The options are read-only: after any sequence of calls, host
    included, they are the ones the plugin was constructed with.  The
    plugin's own methods never change its pause flag either. *)
Theorem options_never_change (S : Scene) (cs : list Call) (w : World) :
  options (self (snd (run S cs w))) = options (self w)
  /\ (forallb is_plugin_call cs = true ->
      paused (self (snd (run S cs w))) = paused (self w)).
Proof.
  revert w. induction cs as [|c cs IH]; intros w.
  - split; reflexivity.
  - rewrite run_cons. simpl.
    destruct (IH (world_of (call S c w))) as (IH1 & IH2).
    split.
    + now rewrite IH1, call_options.
    + intros Hp. apply andb_true_iff in Hp as (Hp1 & Hp2).
      now rewrite (IH2 Hp2), call_paused.
Qed.

Lemma options_never_change_witness :
  paused (self (snd (run flat_scene
     [Down; Move (at_ 1 0 0); Move (at_ 2 100 0); Move (at_ 2 200 0); Up]
     (fresh_world DEFAULT_PINCH_OPTIONS two_fresh)))) = false.
Proof.
  destruct (options_never_change flat_scene
              [Down; Move (at_ 1 0 0); Move (at_ 2 100 0);
               Move (at_ 2 200 0); Up]
              (fresh_world DEFAULT_PINCH_OPTIONS two_fresh)) as (_ & H).
  apply H. reflexivity.
Defined.

(** ** How a session ends *)

Lemma call_keeps_flags (S : Scene) (c : Call) (w : World) :
  occurrences is_pinch_end (events_of (call S c w)) = 0%nat ->
  (active (self w) = true -> active (self (world_of (call S c w))) = true)
  /\ (pinching (self w) = true ->
      pinching (self (world_of (call S c w))) = true).
Proof.
  intros Hn. destruct c as [|e| |b v i]; simpl in *.
  - unfold down, world_of.
    destruct (2 <=? count (input w))%nat; simpl; split; auto.
  - destruct (move_cases S e w)
      as [H | [(f & s & r & Hp & Ha & Ht & Hu)
             | (f & s & r & d & Hp & Ha & Ht & Hd & Hy)]].
    + rewrite H. split; auto.
    + rewrite (move_unresolved S e w Hp Ha Ht Hu).
      destruct (pinching (self w)) eqn:Hq; unfold world_of; simpl;
        split; auto.
    + rewrite (move_commits S e w Hp Ha Ht Hd Hy).
      unfold world_of. simpl. rewrite commit_self. simpl. split; auto.
  - unfold up, events_of, world_of in *.
    destruct (pinching (self w) && (length (touches (input w)) <=? 1)%nat);
      simpl in *; [discriminate|]. split; auto.
  - split; auto.
Qed.

(** X11.  [active] and [pinching], once true, are cleared by nothing but an
    [up] that ends the session: as long as no [pinch-end] has been emitted
    they are still true, whatever calls were made and whatever the host did.
    In particular fingers lifted before [pinching] was set leave the plugin
    active. *)
Theorem flags_cleared_only_by_pinch_end (S : Scene) (cs : list Call)
    (w : World) :
  occurrences is_pinch_end (fst (run S cs w)) = 0%nat ->
  (active (self w) = true -> active (self (snd (run S cs w))) = true)
  /\ (pinching (self w) = true -> pinching (self (snd (run S cs w))) = true).
Proof.
  revert w. induction cs as [|c cs IH]; intros w Hn.
  - split; auto.
  - rewrite run_cons in *. simpl in *. rewrite occurrences_app in Hn.
    assert (H1 : occurrences is_pinch_end (events_of (call S c w)) = 0%nat)
      by lia.
    assert (H2 : occurrences is_pinch_end
                   (fst (run S cs (world_of (call S c w)))) = 0%nat) by lia.
    destruct (call_keeps_flags S c w H1) as (A & P).
    destruct (IH _ H2) as (A' & P'). split; auto.
Qed.

(** Two fingers go down and are lifted again without a move in between. *)
Lemma flags_cleared_only_by_pinch_end_witness :
  active (self (snd (run flat_scene
     [Down; Host false unit_viewport (mkInput 1 [mkTouch 2 None]); Up;
      Host false unit_viewport (mkInput 0 []); Up]
     (armed_world DEFAULT_PINCH_OPTIONS unit_viewport two_fresh)))) = true.
Proof.
  destruct (@flags_cleared_only_by_pinch_end flat_scene
              [Down; Host false unit_viewport (mkInput 1 [mkTouch 2 None]); Up;
               Host false unit_viewport (mkInput 0 []); Up]
              (armed_world DEFAULT_PINCH_OPTIONS unit_viewport two_fresh)
              eq_refl) as (H & _).
  apply H. reflexivity.
Defined.

(** X14.  A second [up] right after an [up] is never handled: it returns
    false, emits nothing and changes nothing, so [pinch-end] is never
    emitted twice in a row. *)
Theorem up_twice (w : World) :
  up (world_of (up w)) = (false, [], world_of (up w)).
Proof.
  unfold up at 2 3. unfold world_of.
  destruct (pinching (self w) && (length (touches (input w)) <=? 1)%nat)
    eqn:E; simpl.
  - reflexivity.
  - unfold up. now rewrite E.
Qed.

(** ** The [moved] flag *)

Lemma call_moved_iff_center (S : Scene) (c : Call) (w : World) :
  moved_iff_center (self w) -> moved_iff_center (self (world_of (call S c w))).
Proof.
  unfold moved_iff_center. intros M. destruct c as [|e| |b v i]; simpl.
  - unfold down, world_of.
    destruct (2 <=? count (input w))%nat; simpl; exact M.
  - destruct (move_cases S e w)
      as [H | [(f & s & r & Hp & Ha & Ht & Hu)
             | (f & s & r & d & Hp & Ha & Ht & Hd & Hy)]].
    + rewrite H. exact M.
    + rewrite (move_unresolved S e w Hp Ha Ht Hu).
      destruct (pinching (self w)); unfold world_of; simpl; exact M.
    + rewrite (move_commits S e w Hp Ha Ht Hd Hy).
      unfold world_of. simpl. rewrite commit_self. simpl.
      split; [discriminate | reflexivity].
  - unfold up, world_of.
    destruct (pinching (self w) && (length (touches (input w)) <=? 1)%nat);
      simpl; [|exact M].
    split; [discriminate | intros H; now contradiction H].
  - exact M.
Qed.

Lemma call_moved_zoomed (S : Scene) (c : Call) (w : World) :
  moved (self (world_of (call S c w))) = true ->
  moved (self w) = true
  \/ (1 <= occurrences is_zoomed (events_of (call S c w)))%nat.
Proof.
  destruct c as [|e| |b v i]; simpl.
  - unfold down, world_of.
    destruct (2 <=? count (input w))%nat; simpl; auto.
  - destruct (move_cases S e w)
      as [H | [(f & s & r & Hp & Ha & Ht & Hu)
             | (f & s & r & d & Hp & Ha & Ht & Hd & Hy)]].
    + rewrite H. auto.
    + rewrite (move_unresolved S e w Hp Ha Ht Hu).
      destruct (pinching (self w)); unfold world_of; simpl; auto.
    + intros _. right.
      rewrite (move_commits S e w Hp Ha Ht Hd Hy).
      unfold events_of. simpl.
      destruct (commit_events S (self w) d
                  (fst (record e (toParent S (parent w) (global e)) f s))
                  (snd (record e (toParent S (parent w) (global e)) f s))
                  (parent w)) as (evs & Hev & _).
      rewrite Hev, occurrences_cons. simpl. lia.
  - unfold up, world_of.
    destruct (pinching (self w) && (length (touches (input w)) <=? 1)%nat);
      simpl; [discriminate | auto].
  - auto.
Qed.

(** X13.  After any sequence of calls from a newly constructed plugin,
    [moved] is true exactly when a [lastCenter] is stored, and then at least
    one [zoomed] event has been emitted. *)
Theorem moved_means_zoomed (S : Scene) (cs : list Call) (w : World) :
  initial w ->
  let w' := snd (run S cs w) in
  (moved (self w') = true <-> lastCenter (self w') <> None)
  /\ (moved (self w') = true ->
      (1 <= occurrences is_zoomed (fst (run S cs w)))%nat).
Proof.
  intros Hi.
  assert (G : forall cs w,
             (moved_iff_center (self w) ->
              moved_iff_center (self (snd (run S cs w))))
             /\ (moved (self (snd (run S cs w))) = true ->
                 moved (self w) = true
                 \/ (1 <= occurrences is_zoomed (fst (run S cs w)))%nat)).
  { clear. induction cs as [|c cs IH]; intros w.
    - split; auto.
    - rewrite run_cons. simpl.
      destruct (IH (world_of (call S c w))) as (IH1 & IH2). split.
      + intros M. apply IH1. now apply call_moved_iff_center.
      + intros Hm. rewrite occurrences_app.
        destruct (IH2 Hm) as [Hw | Hz]; [|right; lia].
        destruct (call_moved_zoomed S c w Hw) as [Hw' | Hz];
          [left; exact Hw' | right; lia]. }
  destruct (G cs w) as (G1 & G2).
  assert (M0 : moved_iff_center (self w)).
  { unfold moved_iff_center, initial in *. rewrite Hi. simpl.
    split; [discriminate | intros H; now contradiction H]. }
  assert (Hm : moved (self w) = false)
    by (unfold initial in Hi; rewrite Hi; reflexivity).
  simpl. split; [exact (G1 M0)|].
  intros H. destruct (G2 H) as [H' | H']; [congruence | exact H'].
Qed.

Lemma moved_means_zoomed_witness :
  (1 <= occurrences is_zoomed (fst (run flat_scene
     [Down; Move (at_ 1 0 0); Move (at_ 2 100 0); Move (at_ 2 200 0)]
     (fresh_world DEFAULT_PINCH_OPTIONS two_fresh))))%nat.
Proof.
  destruct (@moved_means_zoomed flat_scene
              [Down; Move (at_ 1 0 0); Move (at_ 2 100 0); Move (at_ 2 200 0)]
              (fresh_world DEFAULT_PINCH_OPTIONS two_fresh) eq_refl)
    as (_ & H).
  apply H. vm_compute. reflexivity.
Defined.

(** ** The events of one [move] *)

Lemma commit_unfold (S : Scene) (p : Pinch) (d : float)
    (first second : IViewportTouch) (v : Viewport) :
  let o := options p in
  let a := asPointData (last first) in
  let b := asPointData (last second) in
  let point := midpoint a b in
  let v1 := applyChange o (scaleChange o d (currentDistance a b) v) v in
  let oldPoint := match center o with
                  | None => Some (toViewport S v point)
                  | Some _ => None
                  end in
  let A := anchor S o point oldPoint (runClamp S v1) in
  let D := drag o point (lastCenter p) (snd A) in
  commit S p d first second v
  = (zoomed v1 point :: fst A ++ fst D, set_moved p point, snd D).
Proof.
  unfold commit.
  destruct (anchor S (options p) _ _ _) as [ev3 v3]. simpl.
  destruct (drag (options p) _ (lastCenter p) v3) as [ev4 v4].
  reflexivity.
Qed.

Lemma applyChange_position (o : IPinchOptions) (change : float)
    (v : Viewport) :
  vx (applyChange o change v) = vx v /\ vy (applyChange o change v) = vy v.
Proof.
  unfold applyChange. destruct (isAxisX o), (isAxisY o); split; reflexivity.
Qed.

(** X4.  The events of one [move] come in one of three shapes: none;
    [pinch-start] alone; or one [zoomed] followed by [moved] events only,
    one for the anchor correction unless a fixed centre is configured, and
    one for the two-finger drag when [noDrag] is off and a previous centre
    is stored.  In the first two shapes the viewport is untouched.  [zoomed]
    is emitted before any translation: its viewport still has the position
    the call started with; the last [moved] event carries the viewport the
    call leaves. *)
Theorem move_events_shape (S : Scene) (e : FederatedPointerEvent)
    (w : World) :
  let o := options (self w) in
  let evs := events_of (move S e w) in
  let v' := parent (world_of (move S e w)) in
  (evs = [] /\ v' = parent w)
  \/ (evs = [pinch_start (parent w)] /\ v' = parent w)
  \/ exists vz pt ms,
       evs = zoomed vz pt :: ms
       /\ vx vz = vx (parent w) /\ vy vz = vy (parent w)
       /\ forallb is_moved ms = true
       /\ length ms
          = (b2n (negb (is_some (center o)))
             + b2n (negb (noDrag o) && is_some (lastCenter (self w))))%nat
       /\ (ms <> [] -> List.last ms (zoomed vz pt) = moved_by_pinch v').
Proof.
  intros o evs v'. unfold evs, v'.
  destruct (move_cases S e w)
    as [H | [(f & s & r & Hp & Ha & Ht & Hu)
           | (f & s & r & d & Hp & Ha & Ht & Hd & Hy)]].
  - left. rewrite H. split; reflexivity.
  - rewrite (move_unresolved S e w Hp Ha Ht Hu).
    destruct (pinching (self w)); [left | right; left]; split; reflexivity.
  - right; right.
    rewrite (move_commits S e w Hp Ha Ht Hd Hy).
    unfold events_of, world_of. simpl. rewrite commit_unfold. simpl.
    do 3 eexists. split; [reflexivity|].
    split; [apply applyChange_position|].
    split; [apply applyChange_position|].
    fold o. unfold anchor, drag.
    destruct (center o), (noDrag o), (lastCenter (self w)); simpl;
      repeat split; intros H; try reflexivity; now contradiction H.
Qed.

Lemma move_events_shape_witness :
  exists vz pt ms,
    events_of (move flat_scene (at_ 2 300 0)
                 (dragging_world DEFAULT_PINCH_OPTIONS))
    = zoomed vz pt :: ms
    /\ length ms = 2%nat
    /\ List.last ms (zoomed vz pt)
       = moved_by_pinch
           (parent (world_of (move flat_scene (at_ 2 300 0)
                                (dragging_world DEFAULT_PINCH_OPTIONS)))).
Proof.
  destruct (move_events_shape flat_scene (at_ 2 300 0)
              (dragging_world DEFAULT_PINCH_OPTIONS))
    as [(H & _) | [(H & _) | (vz & pt & ms & H1 & _ & _ & _ & H5 & H6)]].
  - vm_compute in H. discriminate H.
  - vm_compute in H. discriminate H.
  - exists vz, pt, ms. split; [exact H1|]. split; [exact H5|].
    apply H6. intros E. rewrite E in H5. discriminate H5.
Defined.

(** X8.  A [zoomed] event is emitted only when both tracked contacts have a
    recorded position after the call; its centre is the midpoint of these
    two positions, and it is the centre the plugin stores as [lastCenter],
    with [moved] set. *)
Theorem zoomed_center_is_midpoint (S : Scene) (e : FederatedPointerEvent)
    (w : World) (vz : Viewport) (pt : Point) :
  In (zoomed vz pt) (events_of (move S e w)) ->
  let w' := world_of (move S e w) in
  exists first' second' rest a' b',
    touches (input w') = first' :: second' :: rest
    /\ last first' = Some a' /\ last second' = Some b'
    /\ pt = midpoint a' b'
    /\ lastCenter (self w') = Some pt
    /\ moved (self w') = true.
Proof.
  intros Hin w'. unfold w'.
  destruct (move_cases S e w)
    as [H | [(f & s & r & Hp & Ha & Ht & Hu)
           | (f & s & r & d & Hp & Ha & Ht & Hd & Hy)]].
  - rewrite H in Hin. destruct Hin.
  - rewrite (move_unresolved S e w Hp Ha Ht Hu) in Hin.
    destruct (pinching (self w)); simpl in Hin;
      [destruct Hin | destruct Hin as [Hin | []]; discriminate].
  - rewrite (move_commits S e w Hp Ha Ht Hd Hy) in *.
    unfold events_of, world_of in *. simpl in *.
    rewrite commit_unfold in *. simpl in *.
    apply previousDistance_Some in Hd as (a & b & Hfa & Hsb & _).
    destruct (record_keeps e (toParent S (parent w) (global e)) f s Hfa Hsb)
      as (a' & b' & Ea & Eb).
    rewrite Ea, Eb in *. simpl in *.
    assert (Hpt : pt = midpoint a' b').
    { destruct Hin as [Hin | Hin]; [now inversion Hin|].
      exfalso. apply in_app_or in Hin. unfold anchor, drag in Hin.
      destruct (center (options (self w))), (noDrag (options (self w))),
        (lastCenter (self w)); simpl in Hin;
        repeat (destruct Hin as [Hin | Hin]; try discriminate Hin);
        try contradiction. }
    exists (fst (record e (toParent S (parent w) (global e)) f s)),
           (snd (record e (toParent S (parent w) (global e)) f s)),
           r, a', b'.
    rewrite Hpt. repeat split; assumption.
Qed.

Lemma zoomed_center_is_midpoint_witness :
  exists first' second' rest a' b',
    touches (input (world_of (move flat_scene (at_ 2 200 0)
       (pinching_world DEFAULT_PINCH_OPTIONS unit_viewport two_placed))))
    = first' :: second' :: rest
    /\ last first' = Some a' /\ last second' = Some b'
    /\ mkPoint 100 0 = midpoint a' b'.
Proof.
  destruct (@zoomed_center_is_midpoint flat_scene (at_ 2 200 0)
              (pinching_world DEFAULT_PINCH_OPTIONS unit_viewport two_placed)
              (mkViewport 0 0 1.5 1.5 800 600) (mkPoint 100 0)
              ltac:(vm_compute; left; reflexivity))
    as (f' & s' & r & a' & b' & H1 & H2 & H3 & H4 & _).
  exists f', s', r, a', b'. repeat split; assumption.
Defined.

(** ** The two-finger drag *)

(** X9.  With [noDrag] set, the centre stored by the previous update has no
    influence on a [move]: result, events, viewport and contacts are the
    same whatever [lastCenter] holds. *)
Theorem noDrag_ignores_lastCenter (S : Scene) (e : FederatedPointerEvent)
    (w : World) (lc : option PointData) :
  noDrag (options (self w)) = true ->
  let r := move S e w in
  let r' := move S e (with_lastCenter w lc) in
  result_of r' = result_of r
  /\ events_of r' = events_of r
  /\ parent (world_of r') = parent (world_of r)
  /\ input (world_of r') = input (world_of r).
Proof.
  intros Hn. unfold move, with_lastCenter. simpl.
  destruct (paused (self w) || negb (active (self w)));
    [repeat split; reflexivity|].
  destruct (touches (input w)) as [|f [|s r]]; try (repeat split; reflexivity).
  destruct (record e (toParent S (parent w) (global e)) f s) as [f' s'].
  destruct (previousDistance f s) as [d|].
  - destruct (truthy d).
    + rewrite !commit_unfold. simpl. unfold drag. rewrite Hn.
      repeat split; reflexivity.
    + destruct (pinching (self w)); repeat split; reflexivity.
  - destruct (pinching (self w)); repeat split; reflexivity.
Qed.

Lemma noDrag_ignores_lastCenter_witness :
  parent (world_of (move flat_scene (at_ 2 300 0)
     (with_lastCenter (dragging_world (mkOptions true 1 1 None axis_all))
        (Some (mkPoint 7 7)))))
  = parent (world_of (move flat_scene (at_ 2 300 0)
      (dragging_world (mkOptions true 1 1 None axis_all)))).
Proof.
  apply (noDrag_ignores_lastCenter flat_scene (at_ 2 300 0)
           (dragging_world (mkOptions true 1 1 None axis_all))
           (Some (mkPoint 7 7)) eq_refl).
Defined.

(** X10.  The two-finger drag is an independent, additive term.  In a
    transform update with [noDrag] off and a previous centre [lc] stored,
    the call does what it would do with [noDrag] set -- same scale change,
    same clamp, same anchoring, same events -- and then translates the
    viewport by [(point - lc) * factor], [point] being the fingers'
    midpoint, and emits one more [moved] event. *)
Theorem drag_is_added (S : Scene) (e : FederatedPointerEvent)
    (w : World) (first second : IViewportTouch) (rest : list IViewportTouch)
    (a b lc : PointData) :
  paused (self w) = false -> active (self w) = true ->
  touches (input w) = first :: second :: rest ->
  last first = Some a -> last second = Some b ->
  truthy (distance a b) = true ->
  noDrag (options (self w)) = false ->
  lastCenter (self w) = Some lc ->
  let o := options (self w) in
  let point := midpoint (after_first S e w first a)
                        (after_second S e w first second b) in
  let r0 := move S e (with_noDrag w) in
  let r := move S e w in
  parent (world_of r)
  = translate (parent (world_of r0))
      ((px point - px lc) * factor o) ((py point - py lc) * factor o)
  /\ events_of r = events_of r0 ++ [moved_by_pinch (parent (world_of r))]
  /\ input (world_of r) = input (world_of r0).
Proof.
  intros Hp Ha Ht Hfa Hsb Hy Hn Hl o point r0 r. unfold r0, r.
  assert (Hd : previousDistance first second = Some (distance a b))
    by (unfold previousDistance; now rewrite Hfa, Hsb).
  rewrite (move_commits S e w Hp Ha Ht Hd Hy).
  rewrite (move_commits S e (with_noDrag w) (first := first)
             (second := second) (rest := rest) (d := distance a b)
             Hp Ha Ht Hd Hy).
  unfold events_of, world_of. simpl.
  rewrite !commit_unfold. simpl.
  destruct (record_last e (toParent S (parent w) (global e)) first second)
    as (H1 & H2 & _).
  assert (Ea : asPointData
                 (last (fst (record e (toParent S (parent w) (global e))
                               first second)))
               = after_first S e w first a).
  { rewrite H1, Hfa. unfold after_first.
    now destruct (Z.eqb (id first) (pointerId e)). }
  assert (Eb : asPointData
                 (last (snd (record e (toParent S (parent w) (global e))
                               first second)))
               = after_second S e w first second b).
  { rewrite H2, Hsb. unfold after_second.
    now destruct (Z.eqb (id first) (pointerId e)),
                 (Z.eqb (id second) (pointerId e)). }
  rewrite Ea, Eb. fold point. unfold o.
  unfold drag. simpl. rewrite Hn, Hl. simpl.
  unfold anchor, scaleChange, applyChange, isAxisX, isAxisY. simpl.
  repeat split.
  rewrite <- app_assoc. reflexivity.
Qed.

Lemma drag_is_added_witness :
  vx (parent (world_of (move flat_scene (at_ 2 300 0)
                          (dragging_world DEFAULT_PINCH_OPTIONS))))
  = vx (parent (world_of (move flat_scene (at_ 2 300 0)
                            (with_noDrag (dragging_world DEFAULT_PINCH_OPTIONS)))))
    + (150 - 100) * 1.
Proof.
  destruct (@drag_is_added flat_scene (at_ 2 300 0)
              (dragging_world DEFAULT_PINCH_OPTIONS)
              (mkTouch 1 (Some (mkPoint 0 0)))
              (mkTouch 2 (Some (mkPoint 200 0))) []
              (mkPoint 0 0) (mkPoint 200 0) (mkPoint 100 0)
              eq_refl eq_refl eq_refl eq_refl eq_refl
              ltac:(vm_compute; reflexivity) eq_refl eq_refl) as (H & _).
  rewrite H. reflexivity.
Defined.

(** ** The constructor *)

(** X15.  A newly constructed plugin, whatever options it was given, is
    idle: [move] and [up] are not handled, emit nothing and change nothing,
    for any viewport and any contacts, until a [down] has seen two
    contacts. *)
Theorem constructed_plugin_is_idle (S : Scene) (arg : IPinchOptionsArg)
    (v : Viewport) (i : InputManager) (e : FederatedPointerEvent) :
  let w := mkWorld (construct arg) v i in
  initial w
  /\ move S e w = (false, [], w)
  /\ up w = (false, [], w)
  /\ ((count i < 2)%nat -> down w = (false, [], w))
  /\ ((2 <= count i)%nat -> active (self (world_of (down w))) = true).
Proof.
  intros w. split; [reflexivity|]. split; [reflexivity|].
  split; [reflexivity|]. unfold down, world_of.
  change (count (input w)) with (count i).
  split; intros H.
  - destruct (Nat.leb_spec 2 (count i)); [lia | reflexivity].
  - destruct (Nat.leb_spec 2 (count i)); [reflexivity | lia].
Qed.

Lemma constructed_plugin_is_idle_witness :
  down (mkWorld (construct no_options) unit_viewport one_fresh)
  = (false, [], mkWorld (construct no_options) unit_viewport one_fresh)
  /\ active (self (world_of
       (down (mkWorld (construct no_options) unit_viewport two_fresh)))) = true.
Proof.
  split.
  - destruct (constructed_plugin_is_idle flat_scene no_options unit_viewport
                one_fresh (at_ 1 0 0)) as (_ & _ & _ & H & _).
    apply H. simpl. lia.
  - destruct (constructed_plugin_is_idle flat_scene no_options unit_viewport
                two_fresh (at_ 1 0 0)) as (_ & _ & _ & _ & H).
    apply H. simpl. lia.
Defined.



(** ** What a [move] does not look at *)

(** X17.  Only the first two contacts are tracked.  Whatever contacts
    follow them in the list, and whatever [count()] says, a [move] gives the
    same result, the same events, the same viewport and plugin state, and
    leaves the same two first contacts. *)
Theorem further_contacts_ignored (S : Scene) (e : FederatedPointerEvent)
    (w : World) (rest' : list IViewportTouch) (n' : nat) :
  (2 <= length (touches (input w)))%nat ->
  let w2 := mkWorld (self w) (parent w)
              (mkInput n' (firstn 2 (touches (input w)) ++ rest')) in
  result_of (move S e w2) = result_of (move S e w)
  /\ events_of (move S e w2) = events_of (move S e w)
  /\ parent (world_of (move S e w2)) = parent (world_of (move S e w))
  /\ self (world_of (move S e w2)) = self (world_of (move S e w))
  /\ firstn 2 (touches (input (world_of (move S e w2))))
     = firstn 2 (touches (input (world_of (move S e w)))).
Proof.
  intros Hl w2. unfold w2.
  destruct (touches (input w)) as [|f [|s r]] eqn:Ht; simpl in Hl; try lia.
  unfold move. simpl. rewrite Ht.
  destruct (paused (self w) || negb (active (self w))).
  - simpl. rewrite Ht. repeat split; reflexivity.
  - destruct (record e (toParent S (parent w) (global e)) f s) as [f' s'].
    destruct (previousDistance f s) as [d|].
    + destruct (truthy d).
      * destruct (commit S (self w) d f' s' (parent w)) as [[evs p'] v'].
        repeat split; reflexivity.
      * destruct (pinching (self w)); repeat split; reflexivity.
    + destruct (pinching (self w)); repeat split; reflexivity.
Qed.

(** A third finger is down as well. *)
Lemma further_contacts_ignored_witness :
  events_of (move flat_scene (at_ 2 200 0)
     (mkWorld (self (pinching_world DEFAULT_PINCH_OPTIONS unit_viewport two_placed))
        unit_viewport
        (mkInput 3 [mkTouch 1 (Some (mkPoint 0 0));
                    mkTouch 2 (Some (mkPoint 100 0));
                    mkTouch 3 (Some (mkPoint 9 9))])))
  = events_of (move flat_scene (at_ 2 200 0)
      (pinching_world DEFAULT_PINCH_OPTIONS unit_viewport two_placed)).
Proof.
  apply (@further_contacts_ignored flat_scene (at_ 2 200 0)
           (pinching_world DEFAULT_PINCH_OPTIONS unit_viewport two_placed)
           [mkTouch 3 (Some (mkPoint 9 9))] 3).
  simpl. lia.
Defined.

(** X18.  An event of a pointer that is neither of the two tracked contacts
    contributes nothing of its own: any two such events, whatever their
    pointer ids and positions, give the same result, events and world. *)
Theorem unmatched_events_alike (S : Scene) (e e' : FederatedPointerEvent)
    (w : World) (first second : IViewportTouch) (rest : list IViewportTouch) :
  touches (input w) = first :: second :: rest ->
  id first <> pointerId e -> id second <> pointerId e ->
  id first <> pointerId e' -> id second <> pointerId e' ->
  move S e w = move S e' w.
Proof.
  intros Ht H1 H2 H1' H2'.
  apply Z.eqb_neq in H1, H2, H1', H2'.
  unfold move. rewrite Ht. unfold record. rewrite H1, H2, H1', H2'.
  reflexivity.
Qed.

Lemma unmatched_events_alike_witness :
  move flat_scene (at_ 7 50 50)
    (pinching_world DEFAULT_PINCH_OPTIONS unit_viewport two_placed)
  = move flat_scene (at_ 8 (-3) 12)
      (pinching_world DEFAULT_PINCH_OPTIONS unit_viewport two_placed).
Proof.
  apply (@unmatched_events_alike flat_scene (at_ 7 50 50) (at_ 8 (-3) 12)
           (pinching_world DEFAULT_PINCH_OPTIONS unit_viewport two_placed)
           (mkTouch 1 (Some (mkPoint 0 0)))
           (mkTouch 2 (Some (mkPoint 100 0))) [] eq_refl);
    simpl; lia.
Defined.
